(** * CharacterBERT tokenizer: a shallow embedding of
      [tokenization_character_bert.py] and the properties of its
      byte encoder/decoder, sequence assembly and basic segmenter. *)

From Stdlib Require Import ZArith Lia Bool String Ascii.
From stdpp Require Import base tactics option list gmap.

Open Scope Z_scope.

(** ** Python values *)

Module Py.

(** A Python [str] is a sequence of Unicode code points ([ord] of each
    character); [bytes] and lists of character ids are lists of integers. *)
Abbreviation str := (list Z).

(** An ASCII literal as a [str]. *)
Definition lit (s : string) : str :=
  map (fun a => Z.of_nat (nat_of_ascii a)) (list_ascii_of_string s).

(** The exceptions the embedded code can raise. *)
Inductive exn : Set :=
| AssertionError
| ValueError
| IndexError
| UnicodeDecodeError
| FileNotFoundError.

Inductive result (A : Type) : Type :=
| Ok (a : A)
| Raise (e : exn).
Arguments Ok {A} a.
Arguments Raise {A} e.

Definition bind {A B} (r : result A) (k : A -> result B) : result B :=
  match r with
  | Ok a => k a
  | Raise e => Raise e
  end.

(** [assert cond] *)
Definition py_assert (cond : bool) : result unit :=
  if cond then Ok tt else Raise AssertionError.

(** [len(l)] *)
Definition len {A} (l : list A) : Z := Z.of_nat (length l).

(** [[x] * n]: a non-positive count gives the empty list. *)
Definition list_repeat {A} (x : A) (n : Z) : list A :=
  replicate (Z.to_nat n) x.

(** [l[i] = v] for an index [i >= 0]: [IndexError] out of range. *)
Definition setitem {A} (l : list A) (i : nat) (v : A) : result (list A) :=
  if decide (i < length l)%nat then Ok (<[i := v]> l) else Raise IndexError.

(** [l[:n]]: a negative bound counts from the end. *)
Definition slice_to {A} (l : list A) (n : Z) : list A :=
  if 0 <=? n then take (Z.to_nat n) l
  else take (length l - Z.to_nat (- n))%nat l.

(** [sep.join(parts)] *)
Fixpoint join (sep : str) (parts : list str) : str :=
  match parts with
  | [] => []
  | [p] => p
  | p :: rest => p ++ sep ++ join sep rest
  end.

(** *** UTF-8 *)

(** One code point under [str.encode("utf-8", "ignore")]: lone surrogates
    cannot be encoded and are dropped by the "ignore" handler; so is any
    integer that is not a code point, which a [str] cannot hold. *)
Definition utf8_encode_char (c : Z) : list Z :=
  if (0 <=? c) && (c <? 0x80) then [c]
  else if (0x80 <=? c) && (c <? 0x800) then
    [Z.lor 0xC0 (Z.shiftr c 6); Z.lor 0x80 (Z.land c 0x3F)]
  else if (0xD800 <=? c) && (c <=? 0xDFFF) then []
  else if (0x800 <=? c) && (c <? 0x10000) then
    [Z.lor 0xE0 (Z.shiftr c 12);
     Z.lor 0x80 (Z.land (Z.shiftr c 6) 0x3F);
     Z.lor 0x80 (Z.land c 0x3F)]
  else if (0x10000 <=? c) && (c <=? 0x10FFFF) then
    [Z.lor 0xF0 (Z.shiftr c 18);
     Z.lor 0x80 (Z.land (Z.shiftr c 12) 0x3F);
     Z.lor 0x80 (Z.land (Z.shiftr c 6) 0x3F);
     Z.lor 0x80 (Z.land c 0x3F)]
  else [].

(** [s.encode("utf-8", "ignore")] *)
Definition utf8_encode_ignore (s : str) : list Z :=
  flat_map utf8_encode_char s.

(** A continuation byte [10xxxxxx]. *)
Definition is_cont (b : Z) : bool := (0x80 <=? b) && (b <=? 0xBF).

(** Strict UTF-8 decoding, [None] where [bytes.decode("utf-8")] raises
    [UnicodeDecodeError]: truncated or overlong forms, surrogates and
    values above U+10FFFF are rejected. *)
Fixpoint utf8_decode (bs : list Z) : option str :=
  match bs with
  | [] => Some []
  | b0 :: r0 =>
    if (0 <=? b0) && (b0 <? 0x80) then cons b0 <$> utf8_decode r0
    else if (0xC2 <=? b0) && (b0 <=? 0xDF) then
      match r0 with
      | b1 :: r1 =>
        if is_cont b1
        then cons (Z.lor (Z.shiftl (Z.land b0 0x1F) 6) (Z.land b1 0x3F))
               <$> utf8_decode r1
        else None
      | _ => None
      end
    else if (0xE0 <=? b0) && (b0 <=? 0xEF) then
      match r0 with
      | b1 :: b2 :: r2 =>
        let c := Z.lor (Z.shiftl (Z.land b0 0x0F) 12)
                   (Z.lor (Z.shiftl (Z.land b1 0x3F) 6) (Z.land b2 0x3F)) in
        if is_cont b1 && is_cont b2 && (0x800 <=? c)
           && negb ((0xD800 <=? c) && (c <=? 0xDFFF))
        then cons c <$> utf8_decode r2
        else None
      | _ => None
      end
    else if (0xF0 <=? b0) && (b0 <=? 0xF4) then
      match r0 with
      | b1 :: b2 :: b3 :: r3 =>
        let c := Z.lor (Z.shiftl (Z.land b0 0x07) 18)
                   (Z.lor (Z.shiftl (Z.land b1 0x3F) 12)
                      (Z.lor (Z.shiftl (Z.land b2 0x3F) 6) (Z.land b3 0x3F))) in
        if is_cont b1 && is_cont b2 && is_cont b3
           && (0x10000 <=? c) && (c <=? 0x10FFFF)
        then cons c <$> utf8_decode r3
        else None
      | _ => None
      end
    else None
  end.

(** [s.startswith(prefix)] *)
Fixpoint startswith (s prefix : str) {struct prefix} : bool :=
  match prefix, s with
  | [], _ => true
  | p :: prefix', c :: s' => (c =? p) && startswith s' prefix'
  | _ :: _, [] => false
  end.

(** [s.replace(old, new)] for a non-empty [old]: the occurrences are found
    from left to right and do not overlap; [skip] is the number of
    characters of a replaced occurrence that are still to be passed. *)
Fixpoint replace_from (old new : str) (skip : nat) (s : str) : str :=
  match s with
  | [] => []
  | c :: s' =>
    match skip with
    | S k => replace_from old new k s'
    | O =>
      if startswith s old
      then new ++ replace_from old new (length old - 1) s'
      else c :: replace_from old new 0 s'
    end
  end.

(** [s.replace(old, new)]: an empty [old] matches before every character
    and at the end. *)
Definition str_replace (s old new : str) : str :=
  match old with
  | [] => new ++ flat_map (fun c => c :: new) s
  | _ => replace_from old new 0 s
  end.

(** [bytes(codes)]: every value must be in [range(0, 256)]. *)
Definition to_bytes (codes : list Z) : result (list Z) :=
  if forallb (fun x => (0 <=? x) && (x <? 256)) codes
  then Ok codes else Raise ValueError.

(** [bs.decode("utf-8")] *)
Definition bytes_decode (bs : list Z) : result str :=
  match utf8_decode bs with
  | Some s => Ok s
  | None => Raise UnicodeDecodeError
  end.

(** *** Dictionaries *)

(** A Python [dict] keeps its items in insertion order: a list of
    key/value pairs with distinct keys. *)
Definition dict (K V : Type) := list (K * V).

(** [d.get(k)] *)
Fixpoint dict_get `{EqDecision K} {V} (d : dict K V) (k : K) : option V :=
  match d with
  | [] => None
  | (k', v) :: d' => if decide (k = k') then Some v else dict_get d' k
  end.

(** [d[k] = v]: overwrite in place, or append a new item. *)
Fixpoint dict_set `{EqDecision K} {V} (d : dict K V) (k : K) (v : V) : dict K V :=
  match d with
  | [] => [(k, v)]
  | (k', v') :: d' =>
    if decide (k = k') then (k', v) :: d' else (k', v') :: dict_set d' k v
  end.

(** [dict(pairs)]: later pairs overwrite earlier ones. *)
Definition dict_of_pairs `{EqDecision K} {V} (pairs : list (K * V)) : dict K V :=
  fold_left (fun d kv => dict_set d kv.1 kv.2) pairs [].

End Py.

Import Py.

(** [result] is an error monad; programs below are written with stdpp's
    [x ← r; k]. *)
#[global] Instance result_ret : MRet result := fun _ a => Ok a.
#[global] Instance result_bind : MBind result := fun _ _ k r => Py.bind r k.

(** ** The Unicode database and the character classes the segmenter calls

    [unicodedata], [str.lower], [str.split] and the three predicates
    imported from [tokenization_utils] are not part of the tokenizer's
    file: the segmenter is parameterised by them. *)

Inductive general_category : Set :=
| Lu | Ll | Lt | Lm | Lo
| Mn | Mc | Me
| Nd | Nl | No
| Pc | Pd | Ps | Pe | Pi | Pf | Po
| Sm | Sc | Sk | So
| Zs | Zl | Zp
| Cc | Cf | Cs | Co | Cn.

#[global] Instance general_category_eq_dec : EqDecision general_category.
Proof. solve_decision. Defined.

Class Unicode := {
  (** [unicodedata.category(char)] *)
  category : Z -> general_category;
  (** [unicodedata.normalize("NFC", text)] *)
  normalize_NFC : str -> str;
  (** [unicodedata.normalize("NFD", text)] *)
  normalize_NFD : str -> str;
  (** [text.lower()] *)
  lower : str -> str;
  (** [char.isspace()], the separators of [str.strip] and [str.split] *)
  isspace : Z -> bool;
  (** [tokenization_utils._is_control(char)] *)
  _is_control : Z -> bool;
  (** [tokenization_utils._is_punctuation(char)] *)
  _is_punctuation : Z -> bool;
  (** [tokenization_utils._is_whitespace(char)] *)
  _is_whitespace : Z -> bool
}.

(** ** Module-level functions *)

Definition PAD_CHARACTER_ID : Z := 260.

(** The file system seen by [os.path.isfile] and [open(...).readlines()]:
    a path is mapped to its lines, each with its line terminator. A file
    that is there is one that can be opened and read as UTF-8 text: the
    errors of [open] and [readlines] on an existing file are outside the
    model. *)
Definition filesystem := str -> option (list str).

(** [x.rstrip("\n")] *)
Definition rstrip_newline (x : str) : str :=
  let fix lstrip (s : str) : str :=
    match s with
    | c :: s' => if c =? 10 then lstrip s' else s
    | [] => []
    end in
  reverse (lstrip (reverse x)).

(** [for index, x in enumerate(xs, start)] threading a state through a
    body that may raise. *)
Fixpoint for_enumerate {St A} (body : St -> nat -> A -> result St)
    (st : St) (start : nat) (xs : list A) : result St :=
  match xs with
  | [] => Ok st
  | x :: xs' => st' ← body st start x; for_enumerate body st' (S start) xs'
  end.

(** [for x in xs] threading a state through a body that may raise. *)
Definition for_each {St A} (body : St -> A -> result St) (st : St)
    (xs : list A) : result St :=
  for_enumerate (fun st _ x => body st x) st 0%nat xs.

(** The body of the loop of [load_vocab], on the dictionary [vocab]. *)
Definition load_vocab_step (vocab : dict str Z) (index : nat) (token : str)
    : result (dict str Z) :=
  let token := rstrip_newline token in
  Ok (dict_set vocab token (Z.of_nat index)).

Definition load_vocab (fs : filesystem) (vocab_file : str) : result (dict str Z) :=
  match fs vocab_file with
  | None => Raise FileNotFoundError
  | Some tokens => for_enumerate load_vocab_step [] 0%nat tokens
  end.

Section whitespace.
Context `{U : Unicode}.

(** [text.strip()] *)
Fixpoint lstrip (s : str) : str :=
  match s with
  | c :: s' => if isspace c then lstrip s' else s
  | [] => []
  end.

Definition strip (s : str) : str := reverse (lstrip (reverse (lstrip s))).

(** [text.split()]: maximal runs of non-space characters; [word] is the
    run being read. *)
Fixpoint split_from (word : str) (s : str) : list str :=
  match s with
  | [] => match word with [] => [] | _ => [word] end
  | c :: s' =>
    if isspace c
    then match word with [] => split_from [] s' | _ => word :: split_from [] s' end
    else split_from (word ++ [c]) s'
  end.

Definition split (s : str) : list str := split_from [] s.

Definition whitespace_tokenize (text : str) : list str :=
  let text := strip text in
  match text with
  | [] => []
  | _ => let tokens := split text in tokens
  end.

End whitespace.

Definition special_token_character_ids
    (index bow_character_id eow_character_id pad_character_id max_word_length : Z)
    : result (list Z) :=
  _ ← py_assert (255 <? index);
  let character_ids := list_repeat pad_character_id max_word_length in
  character_ids ← setitem character_ids 0 bow_character_id;
  character_ids ← setitem character_ids 1 index;
  character_ids ← setitem character_ids 2 eow_character_id;
  let character_ids := (fun index => index + 1) <$> (character_ids : list Z) in
  Ok character_ids.

(** ** class BasicTokenizer *)

Module BasicTokenizer.

Record t := {
  do_lower_case : bool;
  never_split : gset str;
  tokenize_chinese_chars : bool;
  strip_accents : option bool;
  do_split_on_punc : bool
}.

Definition __init__ (do_lower_case : bool) (never_split : option (list str))
    (tokenize_chinese_chars : bool) (strip_accents : option bool)
    (do_split_on_punc : bool) : t :=
  let never_split := match never_split with None => [] | Some l => l end in
  {| do_lower_case := do_lower_case;
     never_split := list_to_set never_split;
     tokenize_chinese_chars := tokenize_chinese_chars;
     strip_accents := strip_accents;
     do_split_on_punc := do_split_on_punc |}.

Section methods.
Context `{U : Unicode}.
Variable self : t.

Definition _run_strip_accents (text : str) : str :=
  let text := normalize_NFD text in
  filter (fun char => category char <> Mn) text.

(** [output[-1].append(char)] *)
Definition append_to_last (output : list str) (char : Z) : result (list str) :=
  match output with
  | [] => Raise IndexError
  | _ => Ok (alter (fun word => word ++ [char]) (length output - 1)%nat output)
  end.

(** The body of the [while] loop of [_run_split_on_punc], on the state
    [(output, start_new_word)]. *)
Definition split_on_punc_step (st : list str * bool) (char : Z)
    : result (list str * bool) :=
  let '(output, start_new_word) := st in
  if _is_punctuation char then Ok (output ++ [[char]], true)
  else
    let output := if start_new_word : bool then output ++ [[]] else output in
    output ← append_to_last output char;
    Ok (output, false).

Definition _run_split_on_punc (text : str) (never_split : option (gset str))
    : result (list str) :=
  if negb (do_split_on_punc self)
     || match never_split with
        | Some never_split => bool_decide (text ∈ never_split)
        | None => false
        end
  then Ok [text]
  else
    let chars := text in
    '(output, _) ← for_each split_on_punc_step ([], true) chars;
    Ok output.

Definition _is_chinese_char (cp : Z) : bool :=
  ((0x4E00 <=? cp) && (cp <=? 0x9FFF))
  || ((0x3400 <=? cp) && (cp <=? 0x4DBF))
  || ((0x20000 <=? cp) && (cp <=? 0x2A6DF))
  || ((0x2A700 <=? cp) && (cp <=? 0x2B73F))
  || ((0x2B740 <=? cp) && (cp <=? 0x2B81F))
  || ((0x2B820 <=? cp) && (cp <=? 0x2CEAF))
  || ((0xF900 <=? cp) && (cp <=? 0xFAFF))
  || ((0x2F800 <=? cp) && (cp <=? 0x2FA1F)).

Definition _tokenize_chinese_chars (text : str) : str :=
  flat_map
    (fun char =>
       let cp := char in
       if _is_chinese_char cp then [32; char; 32] else [char])
    text.

Definition _clean_text (text : str) : str :=
  flat_map
    (fun char =>
       let cp := char in
       if (cp =? 0) || (cp =? 0xFFFD) || _is_control char then []
       else if _is_whitespace char then [32]
       else [char])
    text.

(** The body of the [for token in orig_tokens] loop of [tokenize], on the
    list [split_tokens]. *)
Definition tokenize_step (never_split : gset str) (split_tokens : list str)
    (token : str) : result (list str) :=
  let token :=
    if bool_decide (token ∉ never_split) then
      if do_lower_case self then
        let token := lower token in
        if bool_decide (strip_accents self <> Some false)
        then _run_strip_accents token else token
      else if bool_decide (strip_accents self = Some true)
        then _run_strip_accents token else token
    else token in
  pieces ← _run_split_on_punc token (Some never_split);
  Ok (split_tokens ++ pieces).

Definition tokenize (text : str) (never_split : option (list str))
    : result (list str) :=
  let never_split :=
    match never_split with
    | Some ((_ :: _) as l) => BasicTokenizer.never_split self ∪ list_to_set l
    | _ => BasicTokenizer.never_split self
    end in
  let text := _clean_text text in
  let text :=
    if tokenize_chinese_chars self then _tokenize_chinese_chars text else text in
  let unicode_normalized_text := normalize_NFC text in
  let orig_tokens := whitespace_tokenize unicode_normalized_text in
  split_tokens ← for_each (tokenize_step never_split) [] orig_tokens;
  let output_tokens := whitespace_tokenize (join [32] split_tokens) in
  Ok output_tokens.

End methods.

End BasicTokenizer.

(** ** class CharacterBertTokenizer *)

Module CharacterBertTokenizer.

(** The keyword arguments of the constructor, with their defaults. *)
Module Args.
Record t := {
  mlm_vocab_file : option str;
  max_word_length : Z;
  do_lower_case : bool;
  do_basic_tokenize : bool;
  never_split : option (list str);
  unk_token : str;
  sep_token : str;
  pad_token : str;
  cls_token : str;
  mask_token : str;
  tokenize_chinese_chars : bool;
  strip_accents : option bool
}.

Definition default : t := {|
  mlm_vocab_file := None;
  max_word_length := 50;
  do_lower_case := true;
  do_basic_tokenize := true;
  never_split := None;
  unk_token := lit "[UNK]";
  sep_token := lit "[SEP]";
  pad_token := lit "[PAD]";
  cls_token := lit "[CLS]";
  mask_token := lit "[MASK]";
  tokenize_chinese_chars := true;
  strip_accents := None
|}.
End Args.

Record t := {
  mlm_vocab : dict str Z;
  mlm_ids_to_tokens : dict Z str;
  do_basic_tokenize : bool;
  basic_tokenizer : option BasicTokenizer.t;
  unk_token : str;
  sep_token : str;
  pad_token : str;
  cls_token : str;
  mask_token : str;
  max_word_length : Z;
  bow_character_id : Z;
  eow_character_id : Z;
  pad_character_id : Z;
  cls_character_ids : list Z;
  sep_character_ids : list Z;
  mask_character_ids : list Z;
  pad_character_ids : list Z
}.

(** The constructor. The call [super().__init__(...)] runs code of the
    base class [PreTrainedTokenizer], which is not part of this file: the
    model describes the runs in which that call returns. *)
Definition __init__ (fs : filesystem) (kw : Args.t) : result t :=
  mlm_vocab ←
    match Args.mlm_vocab_file kw with
    | Some ((_ :: _) as mlm_vocab_file) =>
      match fs mlm_vocab_file with
      | None => Raise ValueError
      | Some _ => load_vocab fs mlm_vocab_file
      end
    | _ => Ok []
    end;
  let mlm_ids_to_tokens :=
    dict_of_pairs (map (fun '(tok, ids) => (ids, tok)) mlm_vocab) in
  let basic_tokenizer :=
    if Args.do_basic_tokenize kw
    then Some (BasicTokenizer.__init__ (Args.do_lower_case kw)
                 (Args.never_split kw) (Args.tokenize_chinese_chars kw)
                 (Args.strip_accents kw) true)
    else None in
  let max_word_length := Args.max_word_length kw in
  _ ← (if max_word_length <? 3 then Raise ValueError else Ok tt);
  let bow_character_id := 258 in
  let eow_character_id := 259 in
  let pad_character_id := PAD_CHARACTER_ID in
  cls_character_ids ←
    special_token_character_ids 256 bow_character_id eow_character_id
      pad_character_id max_word_length;
  sep_character_ids ←
    special_token_character_ids 257 bow_character_id eow_character_id
      pad_character_id max_word_length;
  mask_character_ids ←
    special_token_character_ids 261 bow_character_id eow_character_id
      pad_character_id max_word_length;
  let pad_character_ids := list_repeat 0 max_word_length in
  Ok {| mlm_vocab := mlm_vocab;
        mlm_ids_to_tokens := mlm_ids_to_tokens;
        do_basic_tokenize := Args.do_basic_tokenize kw;
        basic_tokenizer := basic_tokenizer;
        unk_token := Args.unk_token kw;
        sep_token := Args.sep_token kw;
        pad_token := Args.pad_token kw;
        cls_token := Args.cls_token kw;
        mask_token := Args.mask_token kw;
        max_word_length := max_word_length;
        bow_character_id := bow_character_id;
        eow_character_id := eow_character_id;
        pad_character_id := pad_character_id;
        cls_character_ids := cls_character_ids;
        sep_character_ids := sep_character_ids;
        mask_character_ids := mask_character_ids;
        pad_character_ids := pad_character_ids |}.

(** The exception of an attribute that was never set. *)
Inductive attribute_error : Set := AttributeError.

Section methods.
Variable self : t.

Definition mlm_vocab_size : Z := len (mlm_vocab self).

(** [_tokenize]; [all_special_tokens] is a property of the base class
    [PreTrainedTokenizer] and is a parameter here. The attribute
    [basic_tokenizer] exists only on an object built with
    [do_basic_tokenize]: reading it on another one raises
    [AttributeError], the left summand. *)
Definition _tokenize `{U : Unicode} (all_special_tokens : list str)
    (text : str) (split_special_tokens : bool)
    : attribute_error + result (list str) :=
  let split_tokens := [] in
  if do_basic_tokenize self then
    match basic_tokenizer self with
    | None => inl AttributeError
    | Some basic_tokenizer =>
      inr (tokens ← BasicTokenizer.tokenize basic_tokenizer text
                      (if negb split_special_tokens
                       then Some all_special_tokens else None);
           for_each (fun split_tokens token => Ok (split_tokens ++ [token]))
             split_tokens tokens)
    end
  else
    let split_tokens := whitespace_tokenize text in
    inr (Ok split_tokens).

Definition convert_mlm_token_to_id (token : str) : option Z :=
  match dict_get (mlm_vocab self) token with
  | Some id => Some id
  | None => dict_get (mlm_vocab self) (unk_token self)
  end.

Definition convert_mlm_id_to_token (index : Z) : str :=
  match dict_get (mlm_ids_to_tokens self) index with
  | Some token => token
  | None => unk_token self
  end.

(** The [else] branch of [_convert_token_to_id] up to, and without, the
    final shift: the character ids of an ordinary token. *)
Definition unshifted_character_ids (token : str) : result (list Z) :=
  let token_bytes :=
    slice_to (utf8_encode_ignore token) (max_word_length self - 2) in
  let character_ids := list_repeat (pad_character_id self) (max_word_length self) in
  character_ids ← setitem character_ids 0 (bow_character_id self);
  character_ids ←
    for_enumerate (fun character_ids k index => setitem character_ids k index)
      character_ids 1%nat token_bytes;
  character_ids ←
    setitem character_ids (length token_bytes + 1) (eow_character_id self);
  Ok character_ids.

Definition _convert_token_to_id (token : str) : result (list Z) :=
  if decide (token = cls_token self) then Ok (cls_character_ids self)
  else if decide (token = sep_token self) then Ok (sep_character_ids self)
  else if decide (token = mask_token self) then Ok (mask_character_ids self)
  else if decide (token = pad_token self) then Ok (pad_character_ids self)
  else
    character_ids ← unshifted_character_ids token;
    let character_ids := (fun index => index + 1) <$> (character_ids : list Z) in
    Ok character_ids.

(** What [_convert_id_to_token] does once its assertion has passed. *)
Definition decode_character_ids (character_ids : list Z) : result str :=
  let character_ids_ := (fun index => index - 1) <$> character_ids in
  if decide (character_ids_ = cls_character_ids self) then Ok (cls_token self)
  else if decide (character_ids_ = sep_character_ids self) then Ok (sep_token self)
  else if decide (character_ids_ = mask_character_ids self) then Ok (mask_token self)
  else if decide (character_ids_ = pad_character_ids self) then Ok (pad_token self)
  else
    let utf8_codes :=
      List.filter
        (fun x =>
           negb (x =? pad_character_id self)
           && negb (x =? bow_character_id self)
           && negb (x =? eow_character_id self))
        character_ids_ in
    bs ← to_bytes utf8_codes;
    bytes_decode bs.

Definition _convert_id_to_token (character_ids : list Z) : result str :=
  _ ← py_assert (negb (len character_ids =? max_word_length self));
  decode_character_ids character_ids.

Definition convert_tokens_to_string `{U : Unicode} (tokens : list str) : str :=
  let out_string := strip (str_replace (join (lit " ") tokens) (lit " ##") (lit "")) in
  out_string.

(** [cls_token_id] and [sep_token_id] are properties of the base class
    [PreTrainedTokenizer], and [super().get_special_tokens_mask] is its
    method: the three are parameters here. *)
Variable cls_token_id sep_token_id : list Z.
Variable super_get_special_tokens_mask :
  list (list Z) -> option (list (list Z)) -> bool -> result (list Z).

Definition build_inputs_with_special_tokens
    (token_ids_0 : list (list Z)) (token_ids_1 : option (list (list Z)))
    : list (list Z) :=
  match token_ids_1 with
  | None => [cls_token_id] ++ token_ids_0 ++ [sep_token_id]
  | Some token_ids_1 =>
    let cls := [cls_token_id] in
    let sep := [sep_token_id] in
    cls ++ token_ids_0 ++ sep ++ token_ids_1 ++ sep
  end.

Definition get_special_tokens_mask
    (token_ids_0 : list (list Z)) (token_ids_1 : option (list (list Z)))
    (already_has_special_tokens : bool) : result (list Z) :=
  if already_has_special_tokens
  then super_get_special_tokens_mask token_ids_0 token_ids_1 true
  else
    match token_ids_1 with
    | Some token_ids_1 =>
      Ok ([1] ++ list_repeat 0 (len token_ids_0) ++ [1]
            ++ list_repeat 0 (len token_ids_1) ++ [1])
    | None => Ok ([1] ++ list_repeat 0 (len token_ids_0) ++ [1])
    end.

Definition create_token_type_ids_from_sequences
    (token_ids_0 : list (list Z)) (token_ids_1 : option (list (list Z)))
    : list Z :=
  let sep := [sep_token_id] in
  let cls := [cls_token_id] in
  match token_ids_1 with
  | None => list_repeat 0 (len (cls ++ token_ids_0 ++ sep))
  | Some token_ids_1 =>
    list_repeat 0 (len (cls ++ token_ids_0 ++ sep))
      ++ list_repeat 1 (len (token_ids_1 ++ sep))
  end.

End methods.

End CharacterBertTokenizer.

(** The tokenizer built with every default, on a machine without files. *)
Definition no_files : filesystem := fun _ => None.

Definition default_tokenizer : result CharacterBertTokenizer.t :=
  CharacterBertTokenizer.__init__ no_files CharacterBertTokenizer.Args.default.

(** ** A fragment of the Unicode database

    The data of Unicode 14 (as Python's [unicodedata] and [str] report
    it) for Basic Latin, U+030C COMBINING CARON and the 33 Latin letters
    with caron that U+030C composes to.  On strings over these code
    points the functions below agree with Python's; no other code point
    is looked at by the lemmas that use this instance. *)

Module Fragment.

(** [(base, composed)]: the canonical compositions of a Basic Latin letter
    with U+030C. *)
Definition caron_pairs : list (Z * Z) :=
  [(65, 0x1CD); (67, 0x10C); (68, 0x10E); (69, 0x11A); (71, 0x1E6);
   (72, 0x21E); (73, 0x1CF); (75, 0x1E8); (76, 0x13D); (78, 0x147);
   (79, 0x1D1); (82, 0x158); (83, 0x160); (84, 0x164); (85, 0x1D3);
   (90, 0x17D);
   (97, 0x1CE); (99, 0x10D); (100, 0x10F); (101, 0x11B); (103, 0x1E7);
   (104, 0x21F); (105, 0x1D0); (106, 0x1F0); (107, 0x1E9); (108, 0x13E);
   (110, 0x148); (111, 0x1D2); (114, 0x159); (115, 0x161); (116, 0x165);
   (117, 0x1D4); (122, 0x17E)].

Definition caron : Z := 0x30C.

(** The letter that [base] followed by U+030C composes to. *)
Definition compose (base : Z) : option Z := dict_get caron_pairs base.

(** The base letter of a letter with caron. *)
Definition decompose (c : Z) : option Z :=
  dict_get (map (fun '(b, p) => (p, b)) caron_pairs) c.

Definition is_upper (c : Z) : bool := (65 <=? c) && (c <=? 90).
Definition is_lower (c : Z) : bool := (97 <=? c) && (c <=? 122).

Definition ascii_category (c : Z) : general_category :=
  if (c <? 32) || (c =? 127) then Cc
  else if c =? 32 then Zs
  else if (48 <=? c) && (c <=? 57) then Nd
  else if is_upper c then Lu
  else if is_lower c then Ll
  else if bool_decide (c ∈ [40; 91; 123]) then Ps
  else if bool_decide (c ∈ [41; 93; 125]) then Pe
  else if bool_decide (c ∈ [43; 60; 61; 62; 124; 126]) then Sm
  else if bool_decide (c ∈ [94; 96]) then Sk
  else if c =? 36 then Sc
  else if c =? 45 then Pd
  else if c =? 95 then Pc
  else Po.

Definition category (c : Z) : general_category :=
  if (0 <=? c) && (c <? 128) then ascii_category c
  else if c =? caron then Mn
  else match decompose c with
       | Some base => if is_upper base then Lu else Ll
       | None => Cn
       end.

(** Canonical decomposition: a letter with caron becomes its base letter
    followed by U+030C. *)
Definition normalize_NFD (text : str) : str :=
  flat_map
    (fun c => match decompose c with Some base => [base; caron] | None => [c] end)
    text.

(** Canonical composition of a decomposed string: a base letter takes the
    U+030C that follows it. *)
Fixpoint recompose (text : str) : str :=
  match text with
  | [] => []
  | c :: rest =>
    match rest with
    | m :: rest' =>
      match (if m =? caron then compose c else None) with
      | Some p => p :: recompose rest'
      | None => c :: recompose rest
      end
    | [] => [c]
    end
  end.

Definition normalize_NFC (text : str) : str := recompose (normalize_NFD text).

Definition lower_char (c : Z) : Z :=
  if is_upper c then c + 32
  else match decompose c with
       | Some base =>
         if is_upper base
         then match compose (base + 32) with Some p => p | None => c end
         else c
       | None => c
       end.

Definition lower (text : str) : str := lower_char <$> text.

Definition isspace (c : Z) : bool :=
  ((9 <=? c) && (c <=? 13)) || ((28 <=? c) && (c <=? 32)).

Definition starts_with_C (cat : general_category) : bool :=
  match cat with Cc | Cf | Cs | Co | Cn => true | _ => false end.

Definition starts_with_P (cat : general_category) : bool :=
  match cat with Pc | Pd | Ps | Pe | Pi | Pf | Po => true | _ => false end.

(** Modelled from the spec: [_is_control] of [tokenization_utils], which
    is not among the sources: the "Unicode control characters" the Clean
    step drops, taken as the general categories C*; tab, line feed and
    carriage return are whitespace instead, as in BERT's basic tokenizer. *)
Definition _is_control (c : Z) : bool :=
  if bool_decide (c ∈ [9; 10; 13]) then false
  else starts_with_C (category c).

(** Modelled from the spec: [_is_whitespace] of [tokenization_utils],
    which is not among the sources: the "Unicode whitespace" the Clean step
    replaces with an ASCII space, taken as space, tab, line feed, carriage
    return and the general category Zs. *)
Definition _is_whitespace (c : Z) : bool :=
  if bool_decide (c ∈ [32; 9; 10; 13]) then true
  else bool_decide (category c = Zs).

(** Modelled from the spec: [_is_punctuation] of [tokenization_utils],
    which is not among the sources: the characters "classified as
    punctuation" that the punctuation split isolates, taken as every ASCII
    character that is not a letter, a digit, a space or a control
    character, and the general categories P*. *)
Definition _is_punctuation (c : Z) : bool :=
  ((33 <=? c) && (c <=? 47)) || ((58 <=? c) && (c <=? 64))
  || ((91 <=? c) && (c <=? 96)) || ((123 <=? c) && (c <=? 126))
  || starts_with_P (category c).

Definition unicode : Unicode :=
  Build_Unicode category normalize_NFC normalize_NFD lower isspace
    _is_control _is_punctuation _is_whitespace.

End Fragment.

(** ** Concrete tokenizers used by the examples *)

(** The constructor's arguments with [max_word_length=8], the rest default. *)
Definition args8 : CharacterBertTokenizer.Args.t := {|
  CharacterBertTokenizer.Args.mlm_vocab_file := None;
  CharacterBertTokenizer.Args.max_word_length := 8;
  CharacterBertTokenizer.Args.do_lower_case := true;
  CharacterBertTokenizer.Args.do_basic_tokenize := true;
  CharacterBertTokenizer.Args.never_split := None;
  CharacterBertTokenizer.Args.unk_token := lit "[UNK]";
  CharacterBertTokenizer.Args.sep_token := lit "[SEP]";
  CharacterBertTokenizer.Args.pad_token := lit "[PAD]";
  CharacterBertTokenizer.Args.cls_token := lit "[CLS]";
  CharacterBertTokenizer.Args.mask_token := lit "[MASK]";
  CharacterBertTokenizer.Args.tokenize_chinese_chars := true;
  CharacterBertTokenizer.Args.strip_accents := None
|}.

(** The tokenizer [CharacterBertTokenizer(max_word_length=n)] holds. *)
Definition tokenizer_with (n : nat) : CharacterBertTokenizer.t := {|
  CharacterBertTokenizer.mlm_vocab := [];
  CharacterBertTokenizer.mlm_ids_to_tokens := [];
  CharacterBertTokenizer.do_basic_tokenize := true;
  CharacterBertTokenizer.basic_tokenizer := Some (BasicTokenizer.__init__ true None true None true);
  CharacterBertTokenizer.unk_token := lit "[UNK]";
  CharacterBertTokenizer.sep_token := lit "[SEP]";
  CharacterBertTokenizer.pad_token := lit "[PAD]";
  CharacterBertTokenizer.cls_token := lit "[CLS]";
  CharacterBertTokenizer.mask_token := lit "[MASK]";
  CharacterBertTokenizer.max_word_length := Z.of_nat n;
  CharacterBertTokenizer.bow_character_id := 258;
  CharacterBertTokenizer.eow_character_id := 259;
  CharacterBertTokenizer.pad_character_id := 260;
  CharacterBertTokenizer.cls_character_ids := 259 :: 257 :: 260 :: replicate (n - 3) 261;
  CharacterBertTokenizer.sep_character_ids := 259 :: 258 :: 260 :: replicate (n - 3) 261;
  CharacterBertTokenizer.mask_character_ids := 259 :: 262 :: 260 :: replicate (n - 3) 261;
  CharacterBertTokenizer.pad_character_ids := replicate n 0
|}.

(** A file system with one vocabulary file, in which "the" is listed twice,
    and the constructor's arguments that name it. *)
Definition vocab_files : filesystem := fun path =>
  if decide (path = lit "mlm_vocab.txt")
  then Some [lit "[UNK]" ++ [10]; lit "the" ++ [10]; lit "cat" ++ [10];
             lit "the" ++ [10]]
  else None.

Definition vocab_args : CharacterBertTokenizer.Args.t := {|
  CharacterBertTokenizer.Args.mlm_vocab_file := Some (lit "mlm_vocab.txt");
  CharacterBertTokenizer.Args.max_word_length := 50;
  CharacterBertTokenizer.Args.do_lower_case := true;
  CharacterBertTokenizer.Args.do_basic_tokenize := true;
  CharacterBertTokenizer.Args.never_split := None;
  CharacterBertTokenizer.Args.unk_token := lit "[UNK]";
  CharacterBertTokenizer.Args.sep_token := lit "[SEP]";
  CharacterBertTokenizer.Args.pad_token := lit "[PAD]";
  CharacterBertTokenizer.Args.cls_token := lit "[CLS]";
  CharacterBertTokenizer.Args.mask_token := lit "[MASK]";
  CharacterBertTokenizer.Args.tokenize_chinese_chars := true;
  CharacterBertTokenizer.Args.strip_accents := None
|}.

(** The tokenizer the constructor builds from [vocab_files]. *)
Definition vocab_tokenizer : CharacterBertTokenizer.t := {|
  CharacterBertTokenizer.mlm_vocab :=
    [(lit "[UNK]", 0); (lit "the", 3); (lit "cat", 2)];
  CharacterBertTokenizer.mlm_ids_to_tokens :=
    [(0, lit "[UNK]"); (3, lit "the"); (2, lit "cat")];
  CharacterBertTokenizer.do_basic_tokenize := true;
  CharacterBertTokenizer.basic_tokenizer :=
    Some (BasicTokenizer.__init__ true None true None true);
  CharacterBertTokenizer.unk_token := lit "[UNK]";
  CharacterBertTokenizer.sep_token := lit "[SEP]";
  CharacterBertTokenizer.pad_token := lit "[PAD]";
  CharacterBertTokenizer.cls_token := lit "[CLS]";
  CharacterBertTokenizer.mask_token := lit "[MASK]";
  CharacterBertTokenizer.max_word_length := 50;
  CharacterBertTokenizer.bow_character_id := 258;
  CharacterBertTokenizer.eow_character_id := 259;
  CharacterBertTokenizer.pad_character_id := 260;
  CharacterBertTokenizer.cls_character_ids := 259 :: 257 :: 260 :: replicate 47 261;
  CharacterBertTokenizer.sep_character_ids := 259 :: 258 :: 260 :: replicate 47 261;
  CharacterBertTokenizer.mask_character_ids := 259 :: 262 :: 260 :: replicate 47 261;
  CharacterBertTokenizer.pad_character_ids := replicate 50 0
|}.

(** A tokenizer that lowercases but keeps accents. *)
Definition lowercase_keep_accents : BasicTokenizer.t := BasicTokenizer.__init__ true None true (Some false) true.


(** * Specification vocabulary *)

Module C := CharacterBertTokenizer.

Module B := BasicTokenizer.

(** What a successfully constructed tokenizer looks like. *)
Record constructed (kw : C.Args.t) (self : C.t) : Prop := {
  cons_mwl : C.max_word_length self = C.Args.max_word_length kw;
  cons_mwl_ge : 3 <= C.max_word_length self;
  cons_bow : C.bow_character_id self = 258;
  cons_eow : C.eow_character_id self = 259;
  cons_padc : C.pad_character_id self = 260;
  cons_cls : C.cls_character_ids self
             = 259 :: 257 :: 260
               :: replicate (Z.to_nat (C.max_word_length self) - 3) 261;
  cons_sep : C.sep_character_ids self
             = 259 :: 258 :: 260
               :: replicate (Z.to_nat (C.max_word_length self) - 3) 261;
  cons_mask : C.mask_character_ids self
              = 259 :: 262 :: 260
                :: replicate (Z.to_nat (C.max_word_length self) - 3) 261;
  cons_pad : C.pad_character_ids self
             = replicate (Z.to_nat (C.max_word_length self)) 0;
  cons_unk_token : C.unk_token self = C.Args.unk_token kw;
  cons_cls_token : C.cls_token self = C.Args.cls_token kw;
  cons_sep_token : C.sep_token self = C.Args.sep_token kw;
  cons_mask_token : C.mask_token self = C.Args.mask_token kw;
  cons_pad_token : C.pad_token self = C.Args.pad_token kw
}.

Definition is_byte (b : Z) : Prop := 0 <= b <= 255.

(** A Unicode scalar value: a code point that is not a surrogate, which
    is what UTF-8 can encode. *)
Definition scalar (c : Z) : Prop :=
  0 <= c <= 0x10FFFF /\ ~ (0xD800 <= c <= 0xDFFF).

(** A token is special when it is one of the four configured strings that
    [_convert_token_to_id] maps to a precomputed array, ordinary otherwise. *)
Definition special (self : C.t) (token : str) : Prop :=
  token = C.cls_token self \/ token = C.sep_token self
  \/ token = C.mask_token self \/ token = C.pad_token self.

#[global] Instance special_dec self token : Decision (special self token).
Proof. unfold special. apply _. Defined.

(** The bytes of a token that fit between the two word delimiters. *)
Definition token_bytes (self : C.t) (token : str) : list Z :=
  slice_to (utf8_encode_ignore token) (C.max_word_length self - 2).

(** The four precomputed arrays, in the order the encoder tests them. *)
Definition special_arrays (self : C.t) : list (list Z) :=
  [C.cls_character_ids self; C.sep_character_ids self;
   C.mask_character_ids self; C.pad_character_ids self].

(** The words closed so far when [word] is the one being read. *)
Definition finished (word : option str) : list str :=
  match word with Some w => [w] | None => [] end.

Definition is_ascii (c : Z) : Prop := 0 <= c < 128.

(** [str.lower] on one ASCII character. *)
Definition ascii_lower (c : Z) : Z :=
  if (65 <=? c) && (c <=? 90) then c + 32 else c.

Section vocabulary.
Context `{U : Unicode}.

Definition nospace (c : Z) : Prop := isspace c = false.

Definition nonpunct (c : Z) : Prop := _is_punctuation c = false.

(** A piece is one punctuation character, or a non-empty run without
    punctuation. *)
Definition piece_shape (p : str) : Prop :=
  (exists c, p = [c] /\ _is_punctuation c = true)
  \/ (p <> [] /\ Forall nonpunct p).

(** What the loop of [_run_split_on_punc] appends to its output: [word] is
    the word being read, [None] when the next character starts a new one. *)
Fixpoint punc_segments (word : option str) (chars : str) : list str :=
  match chars with
  | [] => finished word
  | c :: cs =>
    if _is_punctuation c then finished word ++ [c] :: punc_segments None cs
    else punc_segments (Some (default [] word ++ [c])) cs
  end.

(** A character [_clean_text] keeps as it is. *)
Definition kept (c : Z) : Prop :=
  is_ascii c /\ c <> 0 /\ _is_control c = false /\ _is_whitespace c = false.

(** A character of a token: kept by the cleaning, not a separator. *)
Definition good (c : Z) : Prop := kept c /\ nospace c.

Section per_tokenizer.
Variable self : B.t.

(** The effective [never_split] set of a call of [tokenize]. *)
Definition never_split_of (never_split : option (list str)) : gset str :=
  match never_split with
  | Some ((_ :: _) as l) => B.never_split self ∪ list_to_set l
  | _ => B.never_split self
  end.

Variable NS : gset str.

(** [_run_split_on_punc] as a pure function. *)
Definition split_on_punc (text : str) : list str :=
  if negb (B.do_split_on_punc self) || bool_decide (text ∈ NS)
  then [text] else punc_segments None text.

(** The casing and accent step [tokenize] applies to one token. *)
Definition normalize_token (token : str) : str :=
  if bool_decide (token ∉ NS) then
    if B.do_lower_case self then
      let token := lower token in
      if bool_decide (B.strip_accents self <> Some false)
      then B._run_strip_accents token else token
    else if bool_decide (B.strip_accents self = Some true)
      then B._run_strip_accents token else token
  else token.

Definition token_pieces (token : str) : list str :=
  split_on_punc (normalize_token token).

(** A token the second pass leaves alone: it is in the never-split set,
    or it is already lowercased (when lowercasing is on) and already a
    single piece (when punctuation splitting is on). *)
Definition settled (p : str) : Prop :=
  p ∈ NS
  \/ ((B.do_lower_case self = true -> ascii_lower <$> p = p)
      /\ (B.do_split_on_punc self = true -> piece_shape p)).

End per_tokenizer.

End vocabulary.

(** What the segmentation of ASCII text needs from the Unicode functions:
    on ASCII strings normalisation does nothing and lowercasing maps [A-Z]
    to [a-z]; no ASCII character is a combining mark; the space is a
    separator of [str.split] and not a control character; and the letters
    [a-z] are neither separators, nor control characters, nor whitespace. *)
Record ascii_conformant (U : Unicode) : Prop := {
  nfc_ascii : forall s, Forall is_ascii s -> normalize_NFC s = s;
  nfd_ascii : forall s, Forall is_ascii s -> normalize_NFD s = s;
  lower_ascii : forall s, Forall is_ascii s -> lower s = ascii_lower <$> s;
  category_ascii : forall c, is_ascii c -> category c <> Mn;
  isspace_space : isspace 32 = true;
  control_space : _is_control 32 = false;
  letters_plain : forall c, 97 <= c <= 122 ->
    isspace c = false /\ _is_control c = false /\ _is_whitespace c = false
}.

(** Tokenizing, joining the tokens with single spaces, tokenizing again. *)
Definition retokenize `{U : Unicode} (self : B.t) (text : str)
    (never_split : option (list str)) : result (list str) :=
  tokens ← B.tokenize self text never_split;
  B.tokenize self (join [32] tokens) never_split.

(** ** Vocabulary of the further properties *)

(** A token fits when its UTF-8 encoding leaves room for the two word
    delimiters. *)
Definition fits (self : C.t) (token : str) : Prop :=
  len (utf8_encode_ignore token) <= C.max_word_length self - 2.

(** The vocabulary file named by the constructor's arguments is there: no
    file is asked for, or the file system has it. *)
Definition vocab_file_found (fs : filesystem) (kw : C.Args.t) : Prop :=
  match C.Args.mlm_vocab_file kw with
  | Some ((_ :: _) as path) => is_Some (fs path)
  | _ => True
  end.

(** The index [load_vocab] gives a token: the number of the last line that
    holds it, counting from [k]. *)
Fixpoint last_index_from (k : nat) (tok : str) (toks : list str) : option Z :=
  match toks with
  | [] => None
  | t :: ts =>
    match last_index_from (S k) tok ts with
    | Some i => Some i
    | None => if decide (tok = t) then Some (Z.of_nat k) else None
    end
  end.

(** The items of a dictionary with key and value exchanged. *)
Definition swap_pairs (d : list (str * Z)) : list (Z * str) :=
  (fun kv => (kv.2, kv.1)) <$> d.

(** No two neighbouring pieces are both free of punctuation: the runs
    between punctuation characters are maximal. *)
Fixpoint runs_maximal `{U : Unicode} (pieces : list str) : Prop :=
  match pieces with
  | p :: rest =>
    match rest with
    | q :: _ => ~ (Forall nonpunct p /\ Forall nonpunct q)
    | [] => True
    end /\ runs_maximal rest
  | [] => True
  end.

#[global] Instance nospace_dec `{U : Unicode} (c : Z) : Decision (nospace c).
Proof. unfold nospace. apply _. Defined.

(** A character [_tokenize_chinese_chars] does not isolate. *)
Definition not_chinese (c : Z) : Prop := B._is_chinese_char c = false.

(** Not a capital letter of ASCII. *)
Definition not_upper (c : Z) : Prop := ~ (65 <= c <= 90).

(** The elements of [xs] at the positions where [marks] holds [v]. *)
Fixpoint select {A} (v : Z) (marks : list Z) (xs : list A) : list A :=
  match marks, xs with
  | m :: marks', x :: xs' =>
    if decide (m = v) then x :: select v marks' xs' else select v marks' xs'
  | _, _ => []
  end.

(** What [replace(" ##", "")] does to one token after the first of a
    joined text: a token that starts with "##" loses the two characters
    and the space before it. *)
Definition glue_step (token : str) : str :=
  if startswith token [35; 35] then drop 2 token else 32 :: token.

Definition glue (tokens : list str) : str :=
  match tokens with
  | [] => []
  | token :: rest => token ++ flat_map glue_step rest
  end.

(** * Properties *)

(** ** Python lists *)

Lemma setitem_Ok {A} (l : list A) (i : nat) (v : A) :
  (i < length l)%nat -> setitem l i v = Ok (<[i := v]> l).
Proof. intros Hi. unfold setitem. by rewrite decide_True. Qed.

Lemma bind_Ok {A B} (a : A) (k : A -> result B) : (Ok a ≫= k) = k a.
Proof. reflexivity. Qed.

Lemma bind_Raise {A B} (e : exn) (k : A -> result B) : (Raise e ≫= k) = Raise e.
Proof. reflexivity. Qed.

Lemma list_repeat_length {A} (x : A) (n : Z) :
  length (list_repeat x n) = Z.to_nat n.
Proof. apply length_replicate. Qed.

Lemma slice_to_length {A} (l : list A) (n : Z) :
  0 <= n -> (length (slice_to l n) <= Z.to_nat n)%nat.
Proof.
  intros Hn. unfold slice_to.
  destruct (Z.leb_spec 0 n); [|lia]. rewrite length_take. lia.
Qed.

Lemma slice_to_whole {A} (l : list A) (n : Z) :
  len l <= n -> slice_to l n = l.
Proof.
  intros Hn. unfold slice_to, len in *.
  destruct (Z.leb_spec 0 n); [|lia]. apply take_ge. lia.
Qed.

(** The loop [for k, index in enumerate(bs, start=k): ids[k] = index]
    overwrites the window of [ids] that starts at [k]. *)
Lemma for_enumerate_setitem (bs ids : list Z) (k : nat) :
  (k + length bs <= length ids)%nat ->
  for_enumerate (fun ids k b => setitem ids k b) ids k bs
  = Ok (take k ids ++ bs ++ drop (k + length bs) ids).
Proof.
  revert ids k. induction bs as [|b bs IH]; intros ids k Hk; simpl in *.
  - by rewrite Nat.add_0_r, take_drop.
  - rewrite setitem_Ok by lia. rewrite bind_Ok.
    rewrite IH by (rewrite length_insert; lia). f_equal.
    rewrite (take_S_r _ _ b) by (apply list_lookup_insert_eq; lia).
    rewrite take_insert_ge by lia.
    rewrite drop_insert_lt by lia.
    rewrite <- app_assoc. simpl.
    by rewrite Nat.add_succ_r.
Qed.

(** ** The special arrays and the state built by the constructor *)

Lemma special_token_character_ids_eq (index n : Z) :
  255 < index -> 3 <= n ->
  special_token_character_ids index 258 259 260 n
  = Ok (259 :: (index + 1) :: 260 :: replicate (Z.to_nat n - 3) 261).
Proof.
  intros Hi Hn. unfold special_token_character_ids, py_assert, list_repeat.
  destruct (Z.ltb_spec 255 index); [|lia].
  destruct (Z.to_nat n) as [|[|[|m]]] eqn:Hm; [lia..|].
  simpl. rewrite Nat.sub_0_r.
  by rewrite fmap_replicate.
Qed.

Lemma init_constructed fs kw self :
  C.__init__ fs kw = Ok self -> constructed kw self.
Proof.
  unfold C.__init__. intros H.
  match type of H with (?r ≫= _) = _ => destruct r as [vocab|e] end;
    [|discriminate].
  rewrite bind_Ok in H.
  destruct (Z.ltb_spec (C.Args.max_word_length kw) 3); [discriminate|].
  rewrite bind_Ok in H.
  rewrite !special_token_character_ids_eq in H by (done || lia).
  rewrite !bind_Ok in H. injection H as <-.
  by split.
Qed.

(** Without a vocabulary file the MLM vocabulary is the empty [dict]. *)
Lemma init_no_vocab_file fs kw self :
  C.Args.mlm_vocab_file kw = None ->
  C.__init__ fs kw = Ok self -> C.mlm_vocab self = [].
Proof.
  unfold C.__init__. intros -> H. rewrite bind_Ok in H.
  destruct (Z.ltb_spec (C.Args.max_word_length kw) 3); [discriminate|].
  rewrite bind_Ok in H.
  rewrite !special_token_character_ids_eq in H by (done || lia).
  rewrite !bind_Ok in H. by injection H as <-.
Qed.

Lemma load_vocab_loop_Ok (tokens : list str) (vocab : dict str Z) (k : nat) :
  exists vocab', for_enumerate load_vocab_step vocab k tokens = Ok vocab'.
Proof.
  revert vocab k. induction tokens as [|t ts IH]; intros vocab k; simpl.
  - by eexists.
  - apply IH.
Qed.

(** ** The byte encoder *)

Lemma lor_bound (a b n : Z) :
  0 <= n -> 0 <= a < 2 ^ n -> 0 <= b < 2 ^ n -> 0 <= Z.lor a b < 2 ^ n.
Proof.
  intros Hn Ha Hb.
  assert (0 <= Z.lor a b) by (apply Z.lor_nonneg; lia).
  split; [done|].
  destruct (Z.eq_dec (Z.lor a b) 0) as [->|Hne]; [lia|].
  apply Z.log2_lt_pow2; [lia|].
  rewrite Z.log2_lor by lia.
  destruct (Z.eq_dec a 0) as [->|]; destruct (Z.eq_dec b 0) as [->|];
    rewrite ?Z.lor_0_l, ?Z.lor_0_r in *; try done.
  - rewrite Z.max_r by apply Z.log2_nonneg. apply Z.log2_lt_pow2; lia.
  - rewrite Z.max_l by apply Z.log2_nonneg. apply Z.log2_lt_pow2; lia.
  - apply Z.max_lub_lt; apply Z.log2_lt_pow2; lia.
Qed.

Lemma utf8_encode_char_bytes (c : Z) : Forall is_byte (utf8_encode_char c).
Proof.
  unfold utf8_encode_char, is_byte.
  assert (Hlor : forall a b, 0 <= a < 2 ^ 8 -> 0 <= b < 2 ^ 8 ->
                        0 <= Z.lor a b <= 255).
  { intros a b Ha Hb. pose proof (lor_bound a b 8). lia. }
  assert (Hland : forall x, 0 <= x -> 0 <= Z.land x 0x3F < 2 ^ 8).
  { intros x Hx. change 0x3F with (Z.ones 6). rewrite Z.land_ones by lia.
    pose proof (Z.mod_pos_bound x (2 ^ 6)). lia. }
  assert (Hshr : forall x k, 0 <= x -> 0 <= Z.shiftr x k).
  { intros. by apply Z.shiftr_nonneg. }
  repeat case_match; repeat constructor;
    repeat match goal with
           | H : _ && _ = true |- _ => apply andb_prop in H; destruct H
           | H : _ && _ = false |- _ => clear H
           end;
    try lia;
    (apply Hlor; [lia|]);
    try (apply Hland; try apply Hshr; lia);
    rewrite Z.shiftr_div_pow2 by lia;
    (split; [apply Z.div_pos; lia|]);
    apply Z.div_lt_upper_bound; lia.
Qed.

Lemma utf8_encode_ignore_bytes (s : str) : Forall is_byte (utf8_encode_ignore s).
Proof.
  unfold utf8_encode_ignore. induction s as [|c s IH]; simpl; [constructor|].
  apply Forall_app. split; [apply utf8_encode_char_bytes|done].
Qed.

Lemma token_bytes_length kw self token :
  constructed kw self ->
  (length (token_bytes self token) <= Z.to_nat (C.max_word_length self) - 2)%nat.
Proof.
  intros [? Hge]. unfold token_bytes.
  pose proof (slice_to_length (utf8_encode_ignore token)
                (C.max_word_length self - 2)). lia.
Qed.

Lemma token_bytes_are_bytes self token : Forall is_byte (token_bytes self token).
Proof.
  unfold token_bytes, slice_to. pose proof (utf8_encode_ignore_bytes token).
  case_match; by apply Forall_take.
Qed.

Lemma unshifted_character_ids_eq kw self token :
  constructed kw self ->
  C.unshifted_character_ids self token
  = Ok (258 :: token_bytes self token
          ++ 259 :: replicate (Z.to_nat (C.max_word_length self) - 2
                               - length (token_bytes self token)) 260).
Proof.
  intros Hc. pose proof (token_bytes_length kw self token Hc) as Hlen.
  destruct Hc as [_ Hge Hbow Heow Hpad _ _ _ _ _ _ _ _ _].
  unfold C.unshifted_character_ids. fold (token_bytes self token).
  set (bs := token_bytes self token) in *.
  rewrite Hbow, Heow, Hpad. unfold list_repeat.
  destruct (Z.to_nat (C.max_word_length self)) as [|[|n]] eqn:Hn; [lia..|].
  simpl in Hlen. rewrite Nat.sub_0_r in Hlen.
  rewrite setitem_Ok by (simpl; lia). rewrite bind_Ok. simpl.
  rewrite for_enumerate_setitem by (simpl; rewrite length_replicate; lia).
  rewrite bind_Ok. simpl. rewrite Nat.sub_0_r.
  change (260 :: replicate n 260) with (replicate (S n) 260).
  rewrite drop_replicate.
  replace (S n - length bs)%nat with (S (n - length bs)) by lia. simpl.
  rewrite setitem_Ok
    by (simpl; rewrite length_app; simpl; rewrite length_replicate; lia).
  rewrite bind_Ok. do 2 f_equal.
  replace (length bs + 1)%nat with (S (length bs + 0)) by lia. simpl.
  by rewrite insert_app_r.
Qed.

Lemma convert_token_to_id_ordinary kw self token :
  constructed kw self -> ~ special self token ->
  C._convert_token_to_id self token
  = Ok (259 :: ((fun index => index + 1) <$> token_bytes self token)
          ++ 260 :: replicate (Z.to_nat (C.max_word_length self) - 2
                               - length (token_bytes self token)) 261).
Proof.
  intros Hc Hord. unfold C._convert_token_to_id, special in *.
  repeat (case_decide; [tauto|]).
  rewrite (unshifted_character_ids_eq kw) by done. rewrite bind_Ok.
  by rewrite fmap_cons, fmap_app, fmap_cons, fmap_replicate.
Qed.

Lemma convert_token_to_id_special self token :
  special self token ->
  exists ids, C._convert_token_to_id self token = Ok ids
              /\ ids ∈ special_arrays self.
Proof.
  intros Hsp. unfold C._convert_token_to_id, special, special_arrays in *.
  repeat case_decide; try tauto; eexists; (split; [done|]);
    rewrite !elem_of_cons; auto.
Qed.

Lemma default_tokenizer_eq : default_tokenizer = Ok (tokenizer_with 50).
Proof. reflexivity. Qed.

Lemma tokenizer8_eq : C.__init__ no_files args8 = Ok (tokenizer_with 8).
Proof. reflexivity. Qed.

(** Every encoding has the configured length and stays within [0, 262]. *)
Lemma encoder_shape kw self token :
  constructed kw self ->
  exists ids, C._convert_token_to_id self token = Ok ids
              /\ len ids = C.max_word_length self
              /\ Forall (fun i => 0 <= i <= 262) ids.
Proof.
  intros Hinit.
  pose proof (token_bytes_length kw self token Hinit) as Hlen.
  pose proof (cons_mwl_ge _ _ Hinit) as Hge.
  destruct (decide (special self token)) as [Hsp|Hord].
  - destruct (convert_token_to_id_special self token Hsp) as (ids & -> & Hin).
    exists ids. split; [done|]. unfold special_arrays in Hin.
    rewrite (cons_cls _ _ Hinit), (cons_sep _ _ Hinit),
      (cons_mask _ _ Hinit), (cons_pad _ _ Hinit) in Hin.
    rewrite !elem_of_cons, elem_of_nil in Hin. unfold len.
    destruct Hin as [->|[->|[->|[->|[]]]]]; simpl;
      rewrite ?length_replicate; (split; [lia|]);
      repeat (apply Forall_cons; split; [lia|]);
      apply Forall_replicate; lia.
  - eexists. split; [by apply (convert_token_to_id_ordinary kw)|].
    unfold len. simpl. rewrite length_app, length_fmap. simpl.
    rewrite length_replicate. split; [lia|].
    apply Forall_cons; split; [lia|]. apply Forall_app. split.
    + apply Forall_fmap. eapply Forall_impl; [apply token_bytes_are_bytes|].
      unfold is_byte. simpl. lia.
    + apply Forall_cons; split; [lia|]. apply Forall_replicate. lia.
Qed.


(** The value 262 is the shifted marker of the mask token and nothing
    else: an encoding that holds it holds it at position 1 and is the array
    of the mask token. *)
Lemma encoder_marker kw self token ids (k : nat) :
  constructed kw self ->
  C._convert_token_to_id self token = Ok ids ->
  ids !! k = Some 262 ->
  k = 1%nat /\ ids = C.mask_character_ids self.
Proof.
  intros Hinit Hids Hk.
  pose proof (cons_mwl_ge _ _ Hinit) as Hge.
  destruct (decide (special self token)) as [Hsp|Hord].
  - destruct (convert_token_to_id_special self token Hsp) as (ids' & Hids' & Hin).
    rewrite Hids in Hids'. injection Hids' as <-.
    unfold special_arrays in Hin.
    rewrite !elem_of_cons, elem_of_nil in Hin.
    destruct Hin as [->|[->|[->|[->|[]]]]].
    + rewrite (cons_cls _ _ Hinit) in Hk.
      destruct k as [|[|[|k]]]; simpl in Hk; try discriminate.
      apply lookup_replicate in Hk as [? _]. lia.
    + rewrite (cons_sep _ _ Hinit) in Hk.
      destruct k as [|[|[|k]]]; simpl in Hk; try discriminate.
      apply lookup_replicate in Hk as [? _]. lia.
    + split; [|done]. rewrite (cons_mask _ _ Hinit) in Hk.
      destruct k as [|[|[|k]]]; simpl in Hk; try discriminate; [done|].
      apply lookup_replicate in Hk as [? _]. lia.
    + rewrite (cons_pad _ _ Hinit) in Hk.
      apply lookup_replicate in Hk as [? _]. lia.
  - rewrite (convert_token_to_id_ordinary kw) in Hids by done.
    injection Hids as <-. exfalso.
    assert (Hall : Forall (fun i => i <= 261)
              (259 :: ((fun index => index + 1) <$> token_bytes self token)
                 ++ 260 :: replicate (Z.to_nat (C.max_word_length self) - 2
                                      - length (token_bytes self token)) 261)).
    { apply Forall_cons; split; [lia|]. apply Forall_app. split.
      - apply Forall_fmap. eapply Forall_impl; [apply token_bytes_are_bytes|].
        unfold is_byte. simpl. lia.
      - apply Forall_cons; split; [lia|]. apply Forall_replicate. lia. }
    rewrite Forall_lookup in Hall. specialize (Hall k 262 Hk). lia.
Qed.


(** ** Claims about the encoder *)

(** C4, as stated, fails: the array of the mask token, whose marker 261 is
    shifted like every other entry, holds 262 at position 1, outside
    [0, 261]. *)
Lemma mask_array_exceeds_261 :
  C._convert_token_to_id (tokenizer_with 50) (lit "[MASK]")
  = Ok (259 :: 262 :: 260 :: replicate 47 261)
  /\ ~ Forall (fun i => 0 <= i <= 261) (259 :: 262 :: 260 :: replicate 47 261).
Proof.
  split; [reflexivity|].
  intros H. apply Forall_cons_1 in H as [_ H]. apply Forall_cons_1 in H as [H _].
  lia.
Qed.

(** C4 (amended): for every input, special or ordinary, the encoder of a
    constructed tokenizer returns a list of exactly [max_word_length]
    integers, each in [0, 262]; the value 262 occurs at position 1 of the
    array of the mask token, which is what the encoder returns for the mask
    token, and nowhere else: an array that holds 262 holds it at position 1
    and is the array of the mask token. *)
Theorem convert_token_to_id_length_and_range fs kw self token :
  C.__init__ fs kw = Ok self ->
  exists ids, C._convert_token_to_id self token = Ok ids
              /\ len ids = C.max_word_length self
              /\ Forall (fun i => 0 <= i <= 262) ids
              /\ (forall k : nat, ids !! k = Some 262 ->
                    k = 1%nat /\ ids = C.mask_character_ids self)
              /\ C.mask_character_ids self !! 1%nat = Some 262
              /\ (C.mask_token self <> C.cls_token self ->
                  C.mask_token self <> C.sep_token self ->
                  C._convert_token_to_id self (C.mask_token self)
                  = Ok (C.mask_character_ids self)).
Proof.
  intros Hinit%init_constructed.
  destruct (encoder_shape kw self token Hinit) as (ids & Hids & Hlen & Hrange).
  exists ids. split_and!; [done|done|done| | |].
  - intros k. by apply (encoder_marker kw self token).
  - by rewrite (cons_mask _ _ Hinit).
  - intros Hcls Hsep. unfold C._convert_token_to_id.
    rewrite decide_False, decide_False, decide_True by done. done.
Qed.

Lemma convert_token_to_id_length_and_range_witness :
  exists ids, C._convert_token_to_id (tokenizer_with 50) (lit "[MASK]") = Ok ids
              /\ len ids = C.max_word_length (tokenizer_with 50)
              /\ Forall (fun i => 0 <= i <= 262) ids
              /\ (forall k : nat, ids !! k = Some 262 ->
                    k = 1%nat /\ ids = C.mask_character_ids (tokenizer_with 50))
              /\ C.mask_character_ids (tokenizer_with 50) !! 1%nat = Some 262
              /\ (C.mask_token (tokenizer_with 50) <> C.cls_token (tokenizer_with 50) ->
                  C.mask_token (tokenizer_with 50) <> C.sep_token (tokenizer_with 50) ->
                  C._convert_token_to_id (tokenizer_with 50)
                    (C.mask_token (tokenizer_with 50))
                  = Ok (C.mask_character_ids (tokenizer_with 50))).
Proof.
  apply (convert_token_to_id_length_and_range no_files C.Args.default).
  reflexivity.
Defined.

(** C5: with [max_word_length = 8] the ordinary token "hi" has the bytes
    [104, 105], the unshifted array [258, 104, 105, 259, 260, 260, 260, 260]
    and, shifted by one, the result [259, 105, 106, 260, 261, 261, 261, 261]. *)
Theorem encode_hi fs kw self :
  C.__init__ fs kw = Ok self ->
  C.max_word_length self = 8 ->
  ~ special self (lit "hi") ->
  utf8_encode_ignore (lit "hi") = [104; 105]
  /\ C.unshifted_character_ids self (lit "hi")
     = Ok [258; 104; 105; 259; 260; 260; 260; 260]
  /\ C._convert_token_to_id self (lit "hi")
     = Ok [259; 105; 106; 260; 261; 261; 261; 261].
Proof.
  intros Hinit%init_constructed Hmwl Hord.
  split; [reflexivity|]. split.
  - rewrite (unshifted_character_ids_eq kw) by done.
    unfold token_bytes. by rewrite Hmwl.
  - rewrite (convert_token_to_id_ordinary kw) by done.
    unfold token_bytes. by rewrite Hmwl.
Qed.

Lemma encode_hi_witness :
  utf8_encode_ignore (lit "hi") = [104; 105]
  /\ C.unshifted_character_ids (tokenizer_with 8) (lit "hi")
     = Ok [258; 104; 105; 259; 260; 260; 260; 260]
  /\ C._convert_token_to_id (tokenizer_with 8) (lit "hi")
     = Ok [259; 105; 106; 260; 261; 261; 261; 261].
Proof.
  apply (encode_hi no_files args8 (tokenizer_with 8)).
  - reflexivity.
  - reflexivity.
  - unfold special. vm_compute. intros [H|[H|[H|H]]]; discriminate H.
Defined.

(** C9: the empty string, as an ordinary token, encodes without error: BOW
    at position 0, EOW at position 1, then only PAD-CHARACTER, and, every
    entry shifted by one, [259, 260, 261, 261, ...], of length
    [max_word_length]. *)
Theorem encode_empty_string fs kw self :
  C.__init__ fs kw = Ok self ->
  ~ special self [] ->
  C.unshifted_character_ids self []
  = Ok (258 :: 259 :: replicate (Z.to_nat (C.max_word_length self) - 2) 260)
  /\ C._convert_token_to_id self []
     = Ok (259 :: 260 :: replicate (Z.to_nat (C.max_word_length self) - 2) 261).
Proof.
  intros Hinit%init_constructed Hord.
  rewrite (unshifted_character_ids_eq kw) by done.
  rewrite (convert_token_to_id_ordinary kw) by done.
  unfold token_bytes, slice_to. simpl. rewrite !take_nil.
  case_match; simpl; by rewrite Nat.sub_0_r.
Qed.

Lemma encode_empty_string_witness :
  C.unshifted_character_ids (tokenizer_with 50) []
  = Ok (258 :: 259
          :: replicate (Z.to_nat (C.max_word_length (tokenizer_with 50)) - 2) 260)
  /\ C._convert_token_to_id (tokenizer_with 50) []
     = Ok (259 :: 260
             :: replicate (Z.to_nat (C.max_word_length (tokenizer_with 50)) - 2) 261).
Proof.
  apply (encode_empty_string no_files C.Args.default (tokenizer_with 50)).
  - reflexivity.
  - unfold special. vm_compute. intros [H|[H|[H|H]]]; discriminate H.
Defined.

(** C6: the four special arrays are pairwise distinct, and the encoding of
    an ordinary token (of any ordinary token, so of every ASCII one such
    as "a") is none of them. *)
Theorem special_arrays_disjoint fs kw self :
  C.__init__ fs kw = Ok self ->
  NoDup (special_arrays self)
  /\ forall token, ~ special self token ->
       exists ids, C._convert_token_to_id self token = Ok ids
                   /\ ids ∉ special_arrays self.
Proof.
  intros Hinit%init_constructed.
  pose proof (cons_mwl_ge _ _ Hinit) as Hge.
  unfold special_arrays.
  rewrite (cons_cls _ _ Hinit), (cons_sep _ _ Hinit),
    (cons_mask _ _ Hinit), (cons_pad _ _ Hinit).
  destruct (Z.to_nat (C.max_word_length self)) as [|n] eqn:Hn; [lia|].
  split.
  - repeat (apply NoDup_cons; split); try apply NoDup_nil_2;
      rewrite ?elem_of_cons, elem_of_nil; simpl; intuition congruence.
  - intros token Hord. eexists.
    split; [by apply (convert_token_to_id_ordinary kw)|].
    pose proof (token_bytes_are_bytes self token) as Hb.
    rewrite !elem_of_cons, elem_of_nil. simpl.
    destruct (token_bytes self token) as [|b bs]; simpl;
      [intuition congruence|].
    apply Forall_cons in Hb as [Hb _]. unfold is_byte in Hb.
    intros [H|[H|[H|[H|[]]]]]; injection H; lia.
Qed.

Lemma special_arrays_disjoint_witness :
  NoDup (special_arrays (tokenizer_with 50))
  /\ exists ids, C._convert_token_to_id (tokenizer_with 50) (lit "a") = Ok ids
                 /\ ids ∉ special_arrays (tokenizer_with 50).
Proof.
  destruct (special_arrays_disjoint no_files C.Args.default (tokenizer_with 50))
    as [Hdistinct Hordinary].
  - reflexivity.
  - split; [exact Hdistinct|]. apply Hordinary.
    unfold special. vm_compute. intros [H|[H|[H|H]]]; discriminate H.
Defined.

(** ** The decoder *)

Lemma decode_character_ids_no_assertion self ids :
  C.decode_character_ids self ids <> Raise AssertionError.
Proof.
  unfold C.decode_character_ids, to_bytes, bytes_decode.
  repeat case_decide; try done.
  case_match; simpl; [|done]. by case_match.
Qed.

Lemma length_assertion_iff self ids :
  C._convert_id_to_token self ids = Raise AssertionError
  <-> len ids = C.max_word_length self.
Proof.
  unfold C._convert_id_to_token, py_assert.
  destruct (Z.eqb_spec (len ids) (C.max_word_length self)) as [Heq|Hne]; simpl.
  - done.
  - split; [|done]. intros H.
    by apply decode_character_ids_no_assertion in H.
Qed.

(** C1 (code defect): the assertion of [_convert_id_to_token] is
    [len(character_ids) != max_word_length], so the decoder raises on the
    length exactly when the list HAS length [max_word_length], and lets
    every list of another length through. *)
Theorem decode_assertion_inverted self ids :
  C._convert_id_to_token self ids = Raise AssertionError
  <-> len ids = C.max_word_length self.
Proof. apply length_assertion_iff. Qed.

Lemma filter_replicate_false (f : Z -> bool) (n : nat) (x : Z) :
  f x = false -> List.filter f (replicate n x) = [].
Proof. intros Hf. induction n as [|n IH]; simpl; [done|]. by rewrite Hf. Qed.

(** Past the assertion, a special array is not recognised either: the
    unshifted ids are compared with the stored arrays, which are shifted. *)
Lemma decode_character_ids_special kw self ids :
  constructed kw self -> ids ∈ special_arrays self ->
  C.decode_character_ids self ids = Raise ValueError.
Proof.
  intros Hc Hin. pose proof (cons_mwl_ge _ _ Hc) as Hge.
  unfold special_arrays, C.decode_character_ids in *.
  rewrite (cons_bow _ _ Hc), (cons_eow _ _ Hc), (cons_padc _ _ Hc).
  rewrite (cons_cls _ _ Hc), (cons_sep _ _ Hc),
    (cons_mask _ _ Hc), (cons_pad _ _ Hc) in *.
  destruct (Z.to_nat (C.max_word_length self)) as [|n] eqn:Hn; [lia|].
  rewrite !elem_of_cons, elem_of_nil in Hin.
  destruct Hin as [->|[->|[->|[->|[]]]]]; simpl;
    repeat (case_decide; [congruence|]);
    rewrite ?fmap_replicate; simpl;
    rewrite ?filter_replicate_false by done; done.
Qed.

(** C2 (code defect): decoding the array that the encoder returns for a
    special token raises [AssertionError]; and even past the assertion the
    array is not mapped back to its tag but rejected with [ValueError]. *)
Theorem decode_encode_special_raises fs kw self token :
  C.__init__ fs kw = Ok self ->
  special self token ->
  (C._convert_token_to_id self token ≫= C._convert_id_to_token self)
  = Raise AssertionError
  /\ (C._convert_token_to_id self token ≫= C.decode_character_ids self)
     = Raise ValueError.
Proof.
  intros Hinit%init_constructed Hsp.
  destruct (encoder_shape kw self token Hinit) as (ids & Hids & Hlen & _).
  destruct (convert_token_to_id_special self token Hsp) as (ids' & Hids' & Hin).
  rewrite Hids in *. injection Hids' as <-. rewrite !bind_Ok. split.
  - by apply length_assertion_iff.
  - by apply (decode_character_ids_special kw).
Qed.

Lemma decode_encode_special_raises_witness :
  (C._convert_token_to_id (tokenizer_with 50) (lit "[CLS]")
     ≫= C._convert_id_to_token (tokenizer_with 50))
  = Raise AssertionError
  /\ (C._convert_token_to_id (tokenizer_with 50) (lit "[CLS]")
        ≫= C.decode_character_ids (tokenizer_with 50))
     = Raise ValueError.
Proof.
  apply (decode_encode_special_raises no_files C.Args.default).
  - reflexivity.
  - left. reflexivity.
Defined.

(** C3 (code defect): for every token, decoding what the encoder returns
    raises [AssertionError], because the encoder's output always has
    length [max_word_length]; no round trip goes through. *)
Theorem decode_encode_raises fs kw self token :
  C.__init__ fs kw = Ok self ->
  (C._convert_token_to_id self token ≫= C._convert_id_to_token self)
  = Raise AssertionError.
Proof.
  intros Hinit%init_constructed.
  destruct (encoder_shape kw self token Hinit) as (ids & -> & Hlen & _).
  rewrite bind_Ok. by apply length_assertion_iff.
Qed.

Lemma decode_encode_raises_witness :
  (C._convert_token_to_id (tokenizer_with 50) (lit "hi")
     ≫= C._convert_id_to_token (tokenizer_with 50))
  = Raise AssertionError.
Proof. apply (decode_encode_raises no_files C.Args.default). reflexivity. Defined.

(** ** Sequence assembly *)

(** C7: without [already_has_special_tokens], the special-tokens mask and
    the token type ids have the length of the assembled input, which is
    [len(a) + 2] for one sequence and [len(a) + len(b) + 3] for a pair. *)
Theorem mask_and_type_ids_lengths (cls_token_id sep_token_id : list Z)
    (super_mask : list (list Z) -> option (list (list Z)) -> bool -> result (list Z))
    (a : list (list Z)) (b : option (list (list Z))) :
  let inputs := C.build_inputs_with_special_tokens cls_token_id sep_token_id a b in
  exists mask,
    C.get_special_tokens_mask super_mask a b false = Ok mask
    /\ len mask = len inputs
    /\ len (C.create_token_type_ids_from_sequences cls_token_id sep_token_id a b)
       = len inputs
    /\ len inputs = match b with
                    | None => len a + 2
                    | Some b => len a + len b + 3
                    end.
Proof.
  unfold C.get_special_tokens_mask, C.create_token_type_ids_from_sequences,
    C.build_inputs_with_special_tokens, len, list_repeat.
  destruct b as [b|]; simpl; eexists; (split; [reflexivity|]);
    simpl; rewrite ?length_app; simpl;
    rewrite ?length_replicate, ?length_app; simpl;
    rewrite ?length_replicate, ?length_app; simpl; lia.
Qed.

(** ** The MLM vocabulary *)

(** C10: the MLM lookups are total. A token absent from the vocabulary gets
    the id of the unknown token, which is [None] when the unknown token is
    absent too, as it is whenever no vocabulary file was given; an index
    absent from the reverse mapping gets the unknown-token string. *)
Theorem mlm_lookups_fall_back (self : C.t) :
  (forall token, dict_get (C.mlm_vocab self) token = None ->
     C.convert_mlm_token_to_id self token
     = dict_get (C.mlm_vocab self) (C.unk_token self))
  /\ (forall token, dict_get (C.mlm_vocab self) token = None ->
        dict_get (C.mlm_vocab self) (C.unk_token self) = None ->
        C.convert_mlm_token_to_id self token = None)
  /\ (forall fs kw, C.Args.mlm_vocab_file kw = None ->
        C.__init__ fs kw = Ok self ->
        forall token, C.convert_mlm_token_to_id self token = None)
  /\ (forall index, dict_get (C.mlm_ids_to_tokens self) index = None ->
        C.convert_mlm_id_to_token self index = C.unk_token self).
Proof.
  unfold C.convert_mlm_token_to_id, C.convert_mlm_id_to_token.
  repeat split.
  - by intros token ->.
  - by intros token -> ->.
  - intros fs kw Hfile Hinit token.
    by rewrite (init_no_vocab_file fs kw self Hfile Hinit).
  - by intros index ->.
Qed.


Lemma vocab_tokenizer_eq : C.__init__ vocab_files vocab_args = Ok vocab_tokenizer.
Proof. reflexivity. Qed.

Lemma mlm_lookups_fall_back_witness :
  C.convert_mlm_token_to_id vocab_tokenizer (lit "dog") = Some 0
  /\ C.convert_mlm_token_to_id (tokenizer_with 50) (lit "dog") = None
  /\ C.convert_mlm_id_to_token vocab_tokenizer 1 = lit "[UNK]".
Proof.
  split; [|split].
  - apply (proj1 (mlm_lookups_fall_back vocab_tokenizer) (lit "dog")).
    reflexivity.
  - apply (proj1 (proj2 (proj2 (mlm_lookups_fall_back (tokenizer_with 50))))
             no_files C.Args.default); reflexivity.
  - apply (proj2 (proj2 (proj2 (mlm_lookups_fall_back vocab_tokenizer))) 1).
    reflexivity.
Defined.

(** ** Whitespace splitting *)

Section whitespace_lemmas.
Context `{U : Unicode}.

Lemma lstrip_decomp (s : str) :
  exists ws, s = ws ++ lstrip s /\ Forall (fun c => isspace c = true) ws.
Proof.
  induction s as [|c s (ws & Hs & Hws)]; simpl.
  - by exists [].
  - destruct (isspace c) eqn:Hc.
    + exists (c :: ws). split; [by rewrite Hs at 1|by constructor].
    + by exists [].
Qed.

Lemma strip_decomp (s : str) :
  exists ws1 ws2, s = ws1 ++ strip s ++ ws2
    /\ Forall (fun c => isspace c = true) ws1
    /\ Forall (fun c => isspace c = true) ws2.
Proof.
  destruct (lstrip_decomp s) as (ws1 & Hs & Hws1).
  destruct (lstrip_decomp (reverse (lstrip s))) as (ws2 & Hr & Hws2).
  exists ws1, (reverse ws2). repeat split; [|done|by apply Forall_reverse].
  unfold strip. rewrite <- reverse_app, <- Hr, reverse_involutive. done.
Qed.

Lemma split_from_spaces (w ws : str) :
  Forall (fun c => isspace c = true) ws ->
  split_from w ws = match w with [] => [] | _ => [w] end.
Proof.
  intros Hws. revert w. induction Hws as [|c ws Hc _ IH]; intros w; simpl.
  - done.
  - rewrite Hc. destruct w; by rewrite IH.
Qed.

Lemma split_from_trailing (w s ws : str) :
  Forall (fun c => isspace c = true) ws ->
  split_from w (s ++ ws) = split_from w s.
Proof.
  intros Hws. revert w. induction s as [|c s IH]; intros w; simpl.
  - by apply split_from_spaces.
  - destruct (isspace c); [destruct w|]; by rewrite IH.
Qed.

Lemma split_leading (s ws : str) :
  Forall (fun c => isspace c = true) ws -> split (ws ++ s) = split s.
Proof.
  unfold split. induction 1 as [|c ws Hc _ IH]; simpl; [done|].
  by rewrite Hc.
Qed.

(** [strip] before [split] changes nothing: [whitespace_tokenize] is
    [split]. *)
Lemma whitespace_tokenize_split (s : str) : whitespace_tokenize s = split s.
Proof.
  destruct (strip_decomp s) as (ws1 & ws2 & Hs & Hws1 & Hws2).
  rewrite Hs at 2. rewrite split_leading by done.
  unfold split. rewrite split_from_trailing by done.
  unfold whitespace_tokenize, split. by destruct (strip s).
Qed.

Lemma split_from_app (w p s : str) :
  Forall nospace p -> split_from w (p ++ s) = split_from (w ++ p) s.
Proof.
  intros Hp. revert w. induction Hp as [|c p Hc _ IH]; intros w; simpl.
  - by rewrite app_nil_r.
  - rewrite Hc, IH. by rewrite <- app_assoc.
Qed.

(** Splitting the space-joined list of non-empty, space-free words gives
    the words back. *)
Lemma split_join (ps : list str) :
  isspace 32 = true ->
  Forall (fun p => p <> [] /\ Forall nospace p) ps ->
  split (join [32] ps) = ps.
Proof.
  intros H32 Hps. unfold split.
  induction Hps as [|p ps [Hne Hp] Hps IH]; [done|].
  destruct ps as [|q ps].
  - simpl. rewrite <- (app_nil_r p) at 1. rewrite split_from_app by done.
    simpl. by destruct p.
  - change (join [32] (p :: q :: ps)) with (p ++ 32 :: join [32] (q :: ps)).
    remember (join [32] (q :: ps)) as rest.
    rewrite split_from_app by done. simpl. rewrite H32, IH.
    by destruct p.
Qed.

(** The words [split] returns are non-empty, free of spaces, and made of
    characters of the text. *)
Lemma split_from_words (P : Z -> Prop) (w s : str) :
  Forall P w -> Forall nospace w -> Forall P s ->
  Forall (fun t => t <> [] /\ Forall P t /\ Forall nospace t) (split_from w s).
Proof.
  intros Hw Hnw Hs. revert w Hw Hnw.
  induction Hs as [|c s Hc _ IH]; intros w Hw Hnw; simpl.
  - destruct w; [constructor|]. by constructor.
  - destruct (isspace c) eqn:Hsp.
    + destruct w; [by apply IH|].
      constructor; [done|]. by apply IH.
    + apply IH; apply Forall_app; by repeat constructor.
Qed.

Lemma split_words (P : Z -> Prop) (s : str) :
  Forall P s ->
  Forall (fun t => t <> [] /\ Forall P t /\ Forall nospace t) (split s).
Proof. intros. by apply split_from_words. Qed.

End whitespace_lemmas.

(** ** The punctuation split and the token loop as pure functions *)

Section segmenter_lemmas.
Context `{U : Unicode}.
Variable self : B.t.

Lemma append_to_last_snoc (output : list str) (w : str) (c : Z) :
  B.append_to_last (output ++ [w]) c = Ok (output ++ [w ++ [c]]).
Proof.
  unfold B.append_to_last. destruct (output ++ [w]) eqn:Heq.
  - by destruct output.
  - rewrite <- Heq. f_equal. rewrite length_app. simpl.
    replace (length output + 1 - 1)%nat with (length output + 0)%nat by lia.
    by rewrite alter_app_r.
Qed.

Lemma split_on_punc_loop (chars : str) (k : nat) (output : list str)
    (word : option str) :
  exists flag,
    for_enumerate (fun st _ char => B.split_on_punc_step st char)
      (output ++ finished word, bool_decide (word = None)) k chars
    = Ok (output ++ punc_segments word chars, flag).
Proof.
  revert k output word.
  induction chars as [|c cs IH]; intros k output word; simpl.
  - by eexists.
  - destruct (_is_punctuation c) eqn:Hp.
    + rewrite bind_Ok.
      destruct (IH (S k) ((output ++ finished word) ++ [[c]]) None) as [flag Hf].
      simpl in Hf. rewrite app_nil_r in Hf. rewrite Hf.
      exists flag. by rewrite <- !app_assoc.
    + destruct word as [w|]; simpl.
      * rewrite append_to_last_snoc, !bind_Ok.
        apply (IH (S k) output (Some (w ++ [c]))).
      * rewrite app_nil_r, append_to_last_snoc, !bind_Ok.
        apply (IH (S k) output (Some [c])).
Qed.

Section fixed_never_split.
Variable NS : gset str.

Lemma run_split_on_punc_eq (text : str) :
  B._run_split_on_punc self text (Some NS) = Ok (split_on_punc self NS text).
Proof.
  unfold B._run_split_on_punc, split_on_punc.
  case_match; [done|]. unfold for_each.
  destruct (split_on_punc_loop text 0 [] None) as [flag Hf].
  simpl in Hf. by rewrite Hf.
Qed.

Lemma tokenize_step_eq (acc : list str) (token : str) :
  B.tokenize_step self NS acc token = Ok (acc ++ token_pieces self NS token).
Proof.
  unfold B.tokenize_step, token_pieces, normalize_token.
  by rewrite run_split_on_punc_eq.
Qed.

Lemma tokenize_loop (tokens acc : list str) (k : nat) :
  for_enumerate (fun st _ token => B.tokenize_step self NS st token) acc k tokens
  = Ok (acc ++ flat_map (token_pieces self NS) tokens).
Proof.
  revert acc k. induction tokens as [|t ts IH]; intros acc k; simpl.
  - by rewrite app_nil_r.
  - rewrite tokenize_step_eq, bind_Ok, IH. by rewrite <- app_assoc.
Qed.

End fixed_never_split.

(** [tokenize] never raises; its result as a composition of pure steps. *)
Lemma tokenize_eq (text : str) (never_split : option (list str)) :
  B.tokenize self text never_split
  = Ok (split (join [32]
          (flat_map (token_pieces self (never_split_of self never_split))
             (split (normalize_NFC
                (let text := B._clean_text text in
                 if B.tokenize_chinese_chars self
                 then B._tokenize_chinese_chars text else text)))))).
Proof.
  unfold B.tokenize. fold (never_split_of self never_split). unfold for_each.
  rewrite tokenize_loop, bind_Ok. simpl.
  by rewrite !whitespace_tokenize_split.
Qed.

End segmenter_lemmas.

(** ** Shape of the pieces of the punctuation split *)

Section punctuation_pieces.
Context `{U : Unicode}.

Lemma punc_segments_run (w p : str) :
  Forall nonpunct p -> punc_segments (Some w) p = [w ++ p].
Proof.
  intros Hp. revert w. induction Hp as [|c p Hc _ IH]; intros w; simpl.
  - by rewrite app_nil_r.
  - rewrite Hc, IH. by rewrite <- app_assoc.
Qed.

Lemma punc_segments_stable (p : str) :
  piece_shape p -> punc_segments None p = [p].
Proof.
  intros [(c & -> & Hc)|[Hne Hp]]; simpl.
  - by rewrite Hc.
  - destruct Hp as [|c p Hc Hp]; [done|]. simpl.
    rewrite Hc. by rewrite punc_segments_run.
Qed.

Lemma punc_segments_pieces (P : Z -> Prop) (word : option str) (chars : str) :
  Forall P chars ->
  Forall (fun w => w <> [] /\ Forall P w /\ Forall nonpunct w) (finished word) ->
  Forall (fun p => p <> [] /\ Forall P p /\ piece_shape p)
    (punc_segments word chars).
Proof.
  intros Hchars. revert word.
  induction Hchars as [|c cs Hc _ IH]; intros word Hword; simpl.
  - eapply Forall_impl; [exact Hword|]. intros w (? & ? & ?).
    repeat split; try done. by right.
  - destruct (_is_punctuation c) eqn:Hp.
    + apply Forall_app. split.
      * eapply Forall_impl; [exact Hword|]. intros w (? & ? & ?).
        repeat split; try done. by right.
      * constructor; [|by apply IH].
        repeat split; [done|by constructor|]. left. by exists c.
    + apply IH. constructor; [|constructor].
      destruct word as [w|]; simpl.
      * apply Forall_singleton in Hword as (? & ? & ?).
        repeat split; [by destruct w|..]; apply Forall_app; by repeat constructor.
      * by repeat constructor.
Qed.

End punctuation_pieces.

(** ** Segmentation of ASCII text *)

Section ascii.
Context `{U : Unicode}.
Hypothesis HU : ascii_conformant U.
Variable self : B.t.
Variable NS : gset str.

Lemma clean_text_ascii (text : str) :
  Forall is_ascii text ->
  Forall (fun c => c = 32 \/ kept c) (B._clean_text text).
Proof.
  unfold B._clean_text. induction 1 as [|c text Hc _ IH]; simpl; [done|].
  apply Forall_app_2; [|done].
  destruct (Z.eqb_spec c 0); simpl; [done|].
  destruct (Z.eqb_spec c 0xFFFD); simpl; [done|].
  destruct (_is_control c) eqn:?; simpl; [done|].
  destruct (_is_whitespace c) eqn:?; apply Forall_singleton; [by left|].
  right. unfold kept. auto.
Qed.

Lemma clean_text_fixed (s : str) :
  Forall (fun c => c = 32 \/ kept c) s -> B._clean_text s = s.
Proof.
  unfold B._clean_text. induction 1 as [|c s Hc _ IH]; simpl; [done|].
  rewrite IH. destruct Hc as [->|(Ha & H0 & Hctl & Hws)].
  - simpl. rewrite (control_space _ HU). by destruct (_is_whitespace 32).
  - unfold is_ascii in Ha.
    destruct (Z.eqb_spec c 0); [done|].
    destruct (Z.eqb_spec c 0xFFFD); [lia|].
    simpl. by rewrite Hctl, Hws.
Qed.

Lemma tokenize_chinese_chars_ascii (s : str) :
  Forall is_ascii s -> B._tokenize_chinese_chars s = s.
Proof.
  unfold B._tokenize_chinese_chars, is_ascii.
  induction 1 as [|c s Hc _ IH]; simpl; [done|]. rewrite IH.
  replace (B._is_chinese_char c) with false; [done|].
  unfold B._is_chinese_char.
  repeat match goal with
         | |- context [?a <=? ?b] => destruct (Z.leb_spec a b); try lia
         end; done.
Qed.

Lemma ascii_of_kept (s : str) :
  Forall (fun c => c = 32 \/ kept c) s -> Forall is_ascii s.
Proof.
  intros Hs. eapply Forall_impl; [exact Hs|].
  intros c [->|[? _]]; [unfold is_ascii; lia|done].
Qed.

Lemma run_strip_accents_ascii (s : str) :
  Forall is_ascii s -> B._run_strip_accents s = s.
Proof.
  intros Hs. unfold B._run_strip_accents. rewrite (nfd_ascii _ HU) by done.
  induction Hs as [|c s Hc _ IH]; [done|].
  rewrite filter_cons, IH. case_decide; [done|].
  by destruct (category_ascii _ HU c).
Qed.

Lemma ascii_lower_ascii (c : Z) : is_ascii c -> is_ascii (ascii_lower c).
Proof.
  unfold ascii_lower, is_ascii. intros.
  destruct (Z.leb_spec 65 c), (Z.leb_spec c 90); simpl; lia.
Qed.

Lemma ascii_lower_idemp (c : Z) : ascii_lower (ascii_lower c) = ascii_lower c.
Proof.
  unfold ascii_lower.
  destruct ((65 <=? c) && (c <=? 90)) eqn:Hc; [|by rewrite Hc].
  apply andb_prop in Hc as [H1%Z.leb_le H2%Z.leb_le].
  assert ((65 <=? c + 32) && (c + 32 <=? 90) = false) as ->; [|done].
  apply andb_false_iff. right. apply Z.leb_gt. lia.
Qed.

Lemma ascii_lower_good (c : Z) : good c -> good (ascii_lower c).
Proof.
  intros Hg. unfold ascii_lower.
  destruct (Z.leb_spec 65 c), (Z.leb_spec c 90); simpl; try done.
  destruct (letters_plain _ HU (c + 32)) as (? & ? & ?); [lia|].
  unfold good, kept, nospace, is_ascii. repeat split; (done || lia).
Qed.

(** On a token of good characters the casing and accent step is ASCII
    lowercasing, when it applies at all. *)
Lemma normalize_token_ascii (token : str) :
  Forall good token ->
  normalize_token self NS token
  = if bool_decide (token ∉ NS) && B.do_lower_case self
    then ascii_lower <$> token else token.
Proof.
  intros Hg.
  assert (Ha : Forall is_ascii token).
  { eapply Forall_impl; [exact Hg|]. by intros c [[? _] _]. }
  assert (Hl : Forall is_ascii (ascii_lower <$> token)).
  { apply Forall_fmap. eapply Forall_impl; [exact Ha|].
    intros c ?. by apply ascii_lower_ascii. }
  unfold normalize_token.
  destruct (bool_decide (token ∉ NS)); simpl; [|done].
  destruct (B.do_lower_case self).
  - rewrite (lower_ascii _ HU) by done.
    case_bool_decide; [by apply run_strip_accents_ascii|done].
  - case_bool_decide; [by apply run_strip_accents_ascii|done].
Qed.

Lemma normalize_token_good (token : str) :
  token <> [] -> Forall good token ->
  normalize_token self NS token <> []
  /\ Forall good (normalize_token self NS token).
Proof.
  intros Hne Hg. rewrite normalize_token_ascii by done.
  case_match; [|done]. split; [by destruct token|].
  apply Forall_fmap. eapply Forall_impl; [exact Hg|].
  intros c ?. by apply ascii_lower_good.
Qed.

Lemma token_pieces_settled (token : str) :
  token <> [] -> Forall good token ->
  Forall (fun p => p <> [] /\ Forall good p /\ settled self NS p)
    (token_pieces self NS token).
Proof.
  intros Hne Hg.
  destruct (normalize_token_good token Hne Hg) as [Hne' Hg'].
  assert (Hlow : token ∉ NS -> B.do_lower_case self = true ->
                 Forall (fun c => ascii_lower c = c) (normalize_token self NS token)).
  { intros Hns Hdl. rewrite normalize_token_ascii by done.
    rewrite bool_decide_eq_true_2, Hdl by done. simpl.
    apply Forall_fmap, Forall_true. intros c. apply ascii_lower_idemp. }
  assert (Hfix : forall p : str, Forall (fun c => ascii_lower c = c) p ->
                           ascii_lower <$> p = p).
  { induction 1 as [|c p Hc _ IH]; [done|]. by rewrite fmap_cons, Hc, IH. }
  unfold token_pieces, split_on_punc.
  destruct (decide (token ∈ NS)) as [Hin|Hout].
  - assert (normalize_token self NS token = token) as ->.
    { unfold normalize_token. by rewrite bool_decide_eq_false_2 by auto. }
    rewrite (bool_decide_eq_true_2 _ Hin), orb_true_r.
    apply Forall_singleton. split_and!; [done|done|by left].
  - set (t := normalize_token self NS token) in *.
    destruct (decide (t ∈ NS)) as [Hin'|Hout'].
    + rewrite (bool_decide_eq_true_2 _ Hin'), orb_true_r.
      apply Forall_singleton. split_and!; [done|done|by left].
    + rewrite (bool_decide_eq_false_2 _ Hout'), orb_false_r.
      destruct (B.do_split_on_punc self) eqn:Hsp; simpl.
      * assert (Hboth : Forall (fun c => good c /\
                  (B.do_lower_case self = true -> ascii_lower c = c)) t).
        { apply Forall_and. split; [done|].
          destruct (B.do_lower_case self) eqn:Hdl.
          - eapply Forall_impl; [by apply Hlow|]. done.
          - by apply Forall_true. }
        eapply Forall_impl; [by apply (punc_segments_pieces _ None t Hboth)|].
        intros p (Hp & Hall & Hshape). apply Forall_and in Hall as [Hgp Hlp].
        split_and!; [done|done|]. right. split; [|done].
        intros Hdl. apply Hfix. eapply Forall_impl; [exact Hlp|]. auto.
      * apply Forall_singleton. split_and!; [done|done|].
        right. split; [|congruence]. intros Hdl. apply Hfix. by apply Hlow.
Qed.

Lemma token_pieces_fixed (p : str) :
  Forall good p -> settled self NS p -> token_pieces self NS p = [p].
Proof.
  intros Hg Hs. unfold token_pieces, split_on_punc.
  rewrite normalize_token_ascii by done.
  destruct (decide (p ∈ NS)) as [Hin|Hout].
  - rewrite (bool_decide_eq_false_2 (p ∉ NS)) by (intros Hn; by apply Hn).
    simpl. by rewrite (bool_decide_eq_true_2 _ Hin), orb_true_r.
  - destruct Hs as [?|[Hlow Hshape]]; [done|].
    rewrite (bool_decide_eq_true_2 _ Hout). simpl.
    assert ((if B.do_lower_case self then ascii_lower <$> p else p) = p) as ->.
    { destruct (B.do_lower_case self); auto. }
    rewrite (bool_decide_eq_false_2 _ Hout), orb_false_r.
    destruct (B.do_split_on_punc self); simpl; [|done].
    by apply punc_segments_stable, Hshape.
Qed.

Lemma flat_map_token_pieces_fixed (ps : list str) :
  Forall (fun p => p <> [] /\ Forall good p /\ settled self NS p) ps ->
  flat_map (token_pieces self NS) ps = ps.
Proof.
  induction 1 as [|p ps (_ & Hg & Hs) _ IH]; simpl; [done|].
  by rewrite token_pieces_fixed, IH.
Qed.

Lemma flat_map_token_pieces_settled (tokens : list str) :
  Forall (fun t => t <> [] /\ Forall good t) tokens ->
  Forall (fun p => p <> [] /\ Forall good p /\ settled self NS p)
    (flat_map (token_pieces self NS) tokens).
Proof.
  induction 1 as [|t ts [Hne Hg] _ IH]; simpl; [done|].
  apply Forall_app. split; [by apply token_pieces_settled|done].
Qed.

Lemma join_chars (P : Z -> Prop) (ps : list str) :
  P 32 -> Forall (Forall P) ps -> Forall P (join [32] ps).
Proof.
  intros H32. induction 1 as [|p ps Hp Hps IH]; [done|].
  destruct ps as [|q ps]; [done|].
  change (join [32] (p :: q :: ps)) with (p ++ 32 :: join [32] (q :: ps)).
  apply Forall_app. split; [done|]. by constructor.
Qed.

(** The tokens of a cleaned ASCII text are non-empty and made of good
    characters. *)
Lemma split_clean_good (s : str) :
  Forall (fun c => c = 32 \/ kept c) s ->
  Forall (fun t => t <> [] /\ Forall good t) (split s).
Proof.
  intros Hs. eapply Forall_impl; [by apply (split_words _ s Hs)|].
  intros t (Hne & Hk & Hn). split; [done|].
  pose proof (proj2 (Forall_and _ _) (conj Hk Hn)) as Hboth.
  eapply Forall_impl; [exact Hboth|].
  intros c [[->|Hkept] Hnsp]; [|done].
  unfold nospace in Hnsp. by rewrite (isspace_space _ HU) in Hnsp.
Qed.

End ascii.

Section ascii_passes.
Context `{U : Unicode}.
Hypothesis HU : ascii_conformant U.
Variable self : B.t.
Variable never_split : option (list str).

(** The text [tokenize] splits, when the input is cleaned ASCII already. *)
Lemma prepared_text (s : str) :
  Forall (fun c => c = 32 \/ kept c) s ->
  normalize_NFC
    (if B.tokenize_chinese_chars self then B._tokenize_chinese_chars s else s)
  = s.
Proof.
  intros Hs%ascii_of_kept.
  rewrite tokenize_chinese_chars_ascii by done.
  rewrite (nfc_ascii _ HU) by (by destruct (B.tokenize_chinese_chars self)).
  by destruct (B.tokenize_chinese_chars self).
Qed.

Lemma pieces_spaceless (ps : list str) :
  Forall (fun p => p <> [] /\ Forall good p
                   /\ settled self (never_split_of self never_split) p) ps ->
  Forall (fun p => p <> [] /\ Forall nospace p) ps.
Proof.
  intros Hps. eapply Forall_impl; [exact Hps|].
  intros p (Hne & Hg & _). split; [done|].
  eapply Forall_impl; [exact Hg|]. by intros c [_ ?].
Qed.

(** First pass: the tokens of an ASCII text are settled. *)
Lemma tokenize_ascii (text : str) :
  Forall is_ascii text ->
  exists tokens,
    B.tokenize self text never_split = Ok tokens
    /\ Forall (fun p => p <> [] /\ Forall good p
                        /\ settled self (never_split_of self never_split) p)
         tokens.
Proof.
  intros Ha. pose proof (clean_text_ascii text Ha) as Hclean.
  rewrite tokenize_eq. simpl. rewrite prepared_text by done.
  pose proof (flat_map_token_pieces_settled HU self
                (never_split_of self never_split) _
                (split_clean_good HU _ Hclean)) as Hout.
  rewrite split_join by (by apply (isspace_space _ HU) || by apply pieces_spaceless).
  by eexists.
Qed.

(** Second pass: settled tokens, joined with spaces, come back unchanged. *)
Lemma tokenize_settled (tokens : list str) :
  Forall (fun p => p <> [] /\ Forall good p
                   /\ settled self (never_split_of self never_split) p) tokens ->
  B.tokenize self (join [32] tokens) never_split = Ok tokens.
Proof.
  intros Hout.
  assert (Hjoin : Forall (fun c => c = 32 \/ kept c) (join [32] tokens)).
  { apply join_chars; [by left|].
    eapply Forall_impl; [exact Hout|]. intros p (_ & Hg & _).
    eapply Forall_impl; [exact Hg|]. intros c [? _]. by right. }
  rewrite tokenize_eq. simpl.
  rewrite (clean_text_fixed HU) by done.
  rewrite prepared_text by done.
  assert (Hsplit : split (join [32] tokens) = tokens).
  { apply split_join; [apply (isspace_space _ HU)|by apply pieces_spaceless]. }
  rewrite Hsplit, (flat_map_token_pieces_fixed HU) by done.
  by rewrite Hsplit.
Qed.

End ascii_passes.

(** ** The fragment is ASCII-conformant *)

Lemma fragment_decompose_ascii (c : Z) : is_ascii c -> Fragment.decompose c = None.
Proof.
  unfold is_ascii. intros Hc. unfold Fragment.decompose. simpl.
  repeat (case_decide; [lia|]). done.
Qed.

Lemma fragment_nfd_ascii (s : str) :
  Forall is_ascii s -> Fragment.normalize_NFD s = s.
Proof.
  unfold Fragment.normalize_NFD. induction 1 as [|c s Hc _ IH]; simpl; [done|].
  by rewrite fragment_decompose_ascii, IH.
Qed.

Lemma fragment_recompose_ascii (s : str) :
  Forall is_ascii s -> Fragment.recompose s = s.
Proof.
  induction 1 as [|c s Hc Hs IH]; [done|].
  destruct Hs as [|m s Hm Hs]; [done|].
  change (Fragment.recompose (c :: m :: s))
    with (match (if m =? Fragment.caron then Fragment.compose c else None) with
          | Some p => p :: Fragment.recompose s
          | None => c :: Fragment.recompose (m :: s)
          end).
  unfold is_ascii, Fragment.caron in *.
  destruct (Z.eqb_spec m 780); [lia|]. by rewrite IH.
Qed.

Lemma fragment_lower_ascii (s : str) :
  Forall is_ascii s -> Fragment.lower s = ascii_lower <$> s.
Proof.
  unfold Fragment.lower. induction 1 as [|c s Hc _ IH]; [done|].
  rewrite !fmap_cons, IH. f_equal.
  unfold Fragment.lower_char, ascii_lower, Fragment.is_upper.
  case_match; [done|]. by rewrite fragment_decompose_ascii.
Qed.

Lemma fragment_conformant : ascii_conformant Fragment.unicode.
Proof.
  split; simpl.
  - intros s Hs. unfold Fragment.normalize_NFC.
    by rewrite fragment_nfd_ascii, fragment_recompose_ascii.
  - apply fragment_nfd_ascii.
  - apply fragment_lower_ascii.
  - intros c Hc.
    assert (Hall : Forall (fun c => Fragment.category c <> Mn) (seqZ 0 128)).
    { apply (bool_decide_unpack _). by vm_compute. }
    rewrite Forall_forall in Hall. apply Hall, elem_of_seqZ.
    unfold is_ascii in Hc. lia.
  - reflexivity.
  - reflexivity.
  - intros c Hc.
    assert (Hall : Forall (fun c => Fragment.isspace c = false
                           /\ Fragment._is_control c = false
                           /\ Fragment._is_whitespace c = false) (seqZ 97 26)).
    { apply (bool_decide_unpack _). by vm_compute. }
    rewrite Forall_forall in Hall. apply Hall, elem_of_seqZ. lia.
Qed.

(** ** Claim about the segmenter *)

(** C8, as stated, fails: with lowercasing on and accent stripping off,
    "J" followed by U+030C is lowercased to "j" U+030C after the NFC step;
    tokenized again, that token is composed by NFC to the single letter
    U+01F0. *)
Lemma tokenize_not_idempotent :
  B.tokenize (U := Fragment.unicode) lowercase_keep_accents [74; 780] None
  = Ok [[106; 780]]
  /\ B.tokenize (U := Fragment.unicode) lowercase_keep_accents
       (join [32] [[106; 780]]) None
     = Ok [[496]]
  /\ retokenize (U := Fragment.unicode) lowercase_keep_accents [74; 780] None
     <> B.tokenize (U := Fragment.unicode) lowercase_keep_accents [74; 780] None.
Proof. split; [|split]; by vm_compute. Qed.

(** C8 (amended): on ASCII text, for every setting of the segmenter and
    every never-split set, [tokenize] returns a token list, and tokenizing
    the space-joined tokens again returns the same list. *)
Theorem tokenize_idempotent_on_ascii `{U : Unicode} (self : B.t) (text : str)
    (never_split : option (list str)) :
  ascii_conformant U ->
  Forall is_ascii text ->
  exists tokens,
    B.tokenize self text never_split = Ok tokens
    /\ B.tokenize self (join [32] tokens) never_split = Ok tokens
    /\ retokenize self text never_split = B.tokenize self text never_split.
Proof.
  intros HU Ha.
  destruct (tokenize_ascii HU self never_split text Ha) as (tokens & Htok & Hs).
  pose proof (tokenize_settled HU self never_split tokens Hs) as Hre.
  exists tokens. split; [done|]. split; [done|].
  unfold retokenize. by rewrite Htok, bind_Ok.
Qed.

Lemma tokenize_idempotent_on_ascii_witness :
  exists tokens,
    B.tokenize (U := Fragment.unicode) (B.__init__ true None true None true)
      (lit "Don't  stop") None = Ok tokens
    /\ B.tokenize (U := Fragment.unicode) (B.__init__ true None true None true)
         (join [32] tokens) None = Ok tokens
    /\ retokenize (U := Fragment.unicode) (B.__init__ true None true None true)
         (lit "Don't  stop") None
       = B.tokenize (U := Fragment.unicode) (B.__init__ true None true None true)
           (lit "Don't  stop") None.
Proof.
  apply (tokenize_idempotent_on_ascii (U := Fragment.unicode)).
  - exact fragment_conformant.
  - apply (bool_decide_unpack _). vm_compute. exact I.
Defined.

(** ** UTF-8: decoding what was encoded *)

Lemma lor_disjoint (a b k : Z) :
  0 <= k -> 0 <= b < 2 ^ k -> Z.lor (a * 2 ^ k) b = a * 2 ^ k + b.
Proof.
  intros Hk Hb. rewrite <- Z.add_lor_land.
  assert (Z.land (a * 2 ^ k) b = 0) as ->; [|lia].
  apply Z.bits_inj'. intros n Hn. rewrite Z.land_spec, Z.bits_0.
  destruct (Z.lt_ge_cases n k).
  - by rewrite Z.mul_pow2_bits_low.
  - destruct (Z.eq_dec b 0) as [->|]; [by rewrite Z.bits_0, andb_false_r|].
    rewrite (Z.bits_above_log2 b n), andb_false_r; [done|lia|].
    apply Z.log2_lt_pow2; [lia|].
    apply Z.lt_le_trans with (2 ^ k); [lia|].
    apply Z.pow_le_mono_r; lia.
Qed.

Ltac dlia := Z.div_mod_to_equations; lia.

Lemma lor_tag (tag x : Z) (k : Z) (t : Z) :
  0 <= k -> t = tag * 2 ^ k -> 0 <= x < 2 ^ k -> Z.lor t x = t + x.
Proof. intros Hk -> Hx. by apply lor_disjoint. Qed.

Lemma cont_byte (x : Z) : 0 <= x -> Z.lor 0x80 (Z.land x 0x3F) = 128 + x mod 64.
Proof.
  intros Hx. change 0x3F with (Z.ones 6). rewrite Z.land_ones by lia.
  apply (lor_tag 2 _ 6); [lia|done|]. apply Z.mod_pos_bound. lia.
Qed.

Lemma encode2 (c : Z) :
  0x80 <= c < 0x800 ->
  utf8_encode_char c = [192 + c / 64; 128 + c mod 64].
Proof.
  intros Hc. unfold utf8_encode_char.
  destruct (Z.leb_spec 0 c), (Z.ltb_spec c 0x80); try lia. simpl.
  destruct (Z.leb_spec 0x80 c), (Z.ltb_spec c 0x800); try lia. simpl.
  rewrite cont_byte by lia. rewrite Z.shiftr_div_pow2 by lia.
  f_equal. apply (lor_tag 3 _ 6); [lia|done|].
  change (2 ^ 6) with 64. dlia.
Qed.

Lemma encode3 (c : Z) :
  0x800 <= c < 0x10000 -> ~ (0xD800 <= c <= 0xDFFF) ->
  utf8_encode_char c = [224 + c / 4096; 128 + c / 64 mod 64; 128 + c mod 64].
Proof.
  intros Hc Hs. unfold utf8_encode_char.
  destruct (Z.leb_spec 0 c), (Z.ltb_spec c 0x80); try lia. simpl.
  destruct (Z.leb_spec 0x80 c), (Z.ltb_spec c 0x800); try lia. simpl.
  assert ((0xD800 <=? c) && (c <=? 0xDFFF) = false) as ->.
  { destruct (Z.leb_spec 0xD800 c), (Z.leb_spec c 0xDFFF); simpl; lia. }
  destruct (Z.leb_spec 0x800 c), (Z.ltb_spec c 0x10000); try lia. simpl.
  rewrite !Z.shiftr_div_pow2 by lia.
  rewrite !cont_byte by dlia.
  f_equal. apply (lor_tag 14 _ 4); [lia|done|].
  change (2 ^ 4) with 16. dlia.
Qed.

Lemma encode4 (c : Z) :
  0x10000 <= c <= 0x10FFFF ->
  utf8_encode_char c
  = [240 + c / 262144; 128 + c / 4096 mod 64; 128 + c / 64 mod 64; 128 + c mod 64].
Proof.
  intros Hc. unfold utf8_encode_char.
  destruct (Z.leb_spec 0 c), (Z.ltb_spec c 0x80); try lia. simpl.
  destruct (Z.leb_spec 0x80 c), (Z.ltb_spec c 0x800); try lia. simpl.
  assert ((0xD800 <=? c) && (c <=? 0xDFFF) = false) as ->.
  { destruct (Z.leb_spec 0xD800 c), (Z.leb_spec c 0xDFFF); simpl; lia. }
  destruct (Z.leb_spec 0x800 c), (Z.ltb_spec c 0x10000); try lia. simpl.
  destruct (Z.leb_spec 0x10000 c), (Z.leb_spec c 0x10FFFF); try lia. simpl.
  rewrite !Z.shiftr_div_pow2 by lia.
  rewrite !cont_byte by dlia.
  f_equal. apply (lor_tag 15 _ 4); [lia|done|].
  change (2 ^ 4) with 16. dlia.
Qed.


Lemma utf8_decode_cons (b0 : Z) (r0 : list Z) :
  utf8_decode (b0 :: r0)
  = if (0 <=? b0) && (b0 <? 0x80) then cons b0 <$> utf8_decode r0
    else if (0xC2 <=? b0) && (b0 <=? 0xDF) then
      match r0 with
      | b1 :: r1 =>
        if is_cont b1
        then cons (Z.lor (Z.shiftl (Z.land b0 0x1F) 6) (Z.land b1 0x3F))
               <$> utf8_decode r1
        else None
      | _ => None
      end
    else if (0xE0 <=? b0) && (b0 <=? 0xEF) then
      match r0 with
      | b1 :: b2 :: r2 =>
        let c := Z.lor (Z.shiftl (Z.land b0 0x0F) 12)
                   (Z.lor (Z.shiftl (Z.land b1 0x3F) 6) (Z.land b2 0x3F)) in
        if is_cont b1 && is_cont b2 && (0x800 <=? c)
           && negb ((0xD800 <=? c) && (c <=? 0xDFFF))
        then cons c <$> utf8_decode r2
        else None
      | _ => None
      end
    else if (0xF0 <=? b0) && (b0 <=? 0xF4) then
      match r0 with
      | b1 :: b2 :: b3 :: r3 =>
        let c := Z.lor (Z.shiftl (Z.land b0 0x07) 18)
                   (Z.lor (Z.shiftl (Z.land b1 0x3F) 12)
                      (Z.lor (Z.shiftl (Z.land b2 0x3F) 6) (Z.land b3 0x3F))) in
        if is_cont b1 && is_cont b2 && is_cont b3
           && (0x10000 <=? c) && (c <=? 0x10FFFF)
        then cons c <$> utf8_decode r3
        else None
      | _ => None
      end
    else None.
Proof. reflexivity. Qed.

Lemma land_tagged (tag k t m x : Z) :
  0 <= k -> t = tag * 2 ^ k -> m = Z.ones k -> 0 <= x < 2 ^ k ->
  Z.land (t + x) m = x.
Proof.
  intros Hk -> -> Hx. rewrite Z.land_ones by done.
  rewrite Z.add_comm, Z.mod_add by lia. by apply Z.mod_small.
Qed.

Lemma cont_payload (y : Z) : 0 <= y < 64 -> Z.land (128 + y) 0x3F = y.
Proof. intros. by apply (land_tagged 2 6). Qed.

Lemma is_cont_tagged (y : Z) : 0 <= y < 64 -> is_cont (128 + y) = true.
Proof.
  intros. unfold is_cont.
  by destruct (Z.leb_spec 0x80 (128 + y)), (Z.leb_spec (128 + y) 0xBF); try lia.
Qed.

Ltac bool_lia :=
  rewrite ?andb_true_iff, ?andb_false_iff, ?negb_true_iff, ?negb_false_iff,
    ?andb_true_iff, ?andb_false_iff,
    ?Z.leb_le, ?Z.leb_gt, ?Z.ltb_lt, ?Z.ltb_ge; lia.

Ltac settle_if :=
  match goal with
  | |- context [if ?b then _ else _] =>
    first [ replace b with true by (symmetry; bool_lia)
          | replace b with false by (symmetry; bool_lia) ]
  end.

Lemma decode1 (b0 : Z) (rest : list Z) :
  0 <= b0 < 0x80 -> utf8_decode (b0 :: rest) = cons b0 <$> utf8_decode rest.
Proof. intros Hb. rewrite utf8_decode_cons. by settle_if. Qed.

Lemma decode2 (x y : Z) (rest : list Z) :
  2 <= x < 32 -> 0 <= y < 64 ->
  utf8_decode (192 + x :: 128 + y :: rest)
  = cons (x * 64 + y) <$> utf8_decode rest.
Proof.
  intros Hx Hy. rewrite utf8_decode_cons. do 2 settle_if.
  rewrite is_cont_tagged, cont_payload by done.
  rewrite (land_tagged 6 5 192 0x1F x), Z.shiftl_mul_pow2 by (done || lia).
  by rewrite (lor_disjoint _ _ 6) by lia.
Qed.

Lemma decode3 (x y z : Z) (rest : list Z) :
  0 <= x < 16 -> 0 <= y < 64 -> 0 <= z < 64 ->
  0x800 <= x * 4096 + y * 64 + z ->
  ~ (0xD800 <= x * 4096 + y * 64 + z <= 0xDFFF) ->
  utf8_decode (224 + x :: 128 + y :: 128 + z :: rest)
  = cons (x * 4096 + y * 64 + z) <$> utf8_decode rest.
Proof.
  intros Hx Hy Hz Hlo Hs. rewrite utf8_decode_cons. do 3 settle_if.
  cbv zeta. rewrite !is_cont_tagged, !cont_payload by done.
  rewrite (land_tagged 14 4 224 0x0F x), !Z.shiftl_mul_pow2 by (done || lia).
  rewrite (lor_disjoint _ _ 6), (lor_disjoint _ _ 12) by lia.
  change (2 ^ 12) with 4096. change (2 ^ 6) with 64. rewrite Z.add_assoc.
  by settle_if.
Qed.

Lemma decode4 (x y z w : Z) (rest : list Z) :
  0 <= x < 8 -> 0 <= y < 64 -> 0 <= z < 64 -> 0 <= w < 64 ->
  0x10000 <= x * 262144 + y * 4096 + z * 64 + w <= 0x10FFFF ->
  utf8_decode (240 + x :: 128 + y :: 128 + z :: 128 + w :: rest)
  = cons (x * 262144 + y * 4096 + z * 64 + w) <$> utf8_decode rest.
Proof.
  intros Hx Hy Hz Hw Hr. rewrite utf8_decode_cons. do 4 settle_if.
  cbv zeta. rewrite !is_cont_tagged, !cont_payload by done.
  rewrite (land_tagged 30 3 240 0x07 x), !Z.shiftl_mul_pow2 by (done || lia).
  rewrite (lor_disjoint _ _ 6), (lor_disjoint _ _ 12), (lor_disjoint _ _ 18) by lia.
  change (2 ^ 18) with 262144. change (2 ^ 12) with 4096. change (2 ^ 6) with 64.
  rewrite !Z.add_assoc. by settle_if.
Qed.

Lemma utf8_decode_encode_char (c : Z) (rest : list Z) :
  scalar c ->
  utf8_decode (utf8_encode_char c ++ rest) = cons c <$> utf8_decode rest.
Proof.
  intros [Hr Hs].
  destruct (Z.lt_ge_cases c 0x80); [|destruct (Z.lt_ge_cases c 0x800);
    [|destruct (Z.lt_ge_cases c 0x10000)]].
  - unfold utf8_encode_char.
    replace ((0 <=? c) && (c <? 0x80)) with true by (symmetry; bool_lia).
    cbn [app]. apply decode1. lia.
  - rewrite encode2 by lia. cbn [app]. rewrite decode2 by dlia.
    do 2 f_equal. dlia.
  - rewrite encode3 by lia. cbn [app]. rewrite decode3 by dlia.
    do 2 f_equal. dlia.
  - rewrite encode4 by lia. cbn [app]. rewrite decode4 by dlia.
    do 2 f_equal. dlia.
Qed.

Lemma utf8_decode_encode (s : str) :
  Forall scalar s -> utf8_decode (utf8_encode_ignore s) = Some s.
Proof.
  unfold utf8_encode_ignore. induction 1 as [|c s Hc _ IH]; simpl; [done|].
  by rewrite utf8_decode_encode_char, IH.
Qed.

(** ** The decoder past its assertion *)

Lemma filter_bytes (f : Z -> bool) (bs : list Z) :
  (forall b, is_byte b -> f b = true) -> Forall is_byte bs ->
  List.filter f bs = bs.
Proof.
  intros Hf. induction 1 as [|b bs Hb _ IH]; simpl; [done|].
  by rewrite Hf, IH.
Qed.

Lemma to_bytes_Ok (bs : list Z) : Forall is_byte bs -> to_bytes bs = Ok bs.
Proof.
  intros Hbs. unfold to_bytes.
  replace (forallb _ bs) with true; [done|]. symmetry.
  apply forallb_forall. intros b Hb%list_elem_of_In.
  rewrite Forall_forall in Hbs. specialize (Hbs b Hb).
  unfold is_byte in Hbs. bool_lia.
Qed.

Lemma unshift_shift (ids : list Z) :
  (fun index => index - 1) <$> ((fun index => index + 1) <$> ids) = ids.
Proof.
  induction ids as [|i ids IH]; [done|].
  rewrite !fmap_cons, IH. f_equal. lia.
Qed.

(** Past the length assertion the byte path does invert the encoder: an
    ordinary token made of Unicode scalar values whose UTF-8 encoding fits
    in [max_word_length - 2] bytes is decoded from its encoding. *)
Theorem decode_character_ids_inverts_encoder fs kw self token :
  C.__init__ fs kw = Ok self ->
  ~ special self token ->
  Forall scalar token ->
  len (utf8_encode_ignore token) <= C.max_word_length self - 2 ->
  (C._convert_token_to_id self token ≫= C.decode_character_ids self) = Ok token.
Proof.
  intros Hc%init_constructed Hord Hsc Hfit.
  rewrite (convert_token_to_id_ordinary kw) by done. rewrite bind_Ok.
  pose proof (token_bytes_are_bytes self token) as Hbytes.
  assert (Hbs : token_bytes self token = utf8_encode_ignore token)
    by by apply slice_to_whole.
  pose proof (cons_mwl_ge _ _ Hc) as Hge.
  unfold C.decode_character_ids.
  rewrite (cons_bow _ _ Hc), (cons_eow _ _ Hc), (cons_padc _ _ Hc).
  rewrite (cons_cls _ _ Hc), (cons_sep _ _ Hc),
    (cons_mask _ _ Hc), (cons_pad _ _ Hc).
  set (k := (Z.to_nat (C.max_word_length self) - 2
             - length (token_bytes self token))%nat).
  rewrite fmap_cons, fmap_app, fmap_cons, fmap_replicate, unshift_shift. simpl.
  destruct (Z.to_nat (C.max_word_length self)) as [|n] eqn:Hn; [lia|].
  repeat (case_decide; [simplify_eq|]).
  rewrite List.filter_app. simpl. rewrite filter_replicate_false by done.
  rewrite filter_bytes, app_nil_r; [|intros b Hb; unfold is_byte in Hb; bool_lia|done].
  rewrite to_bytes_Ok by done. rewrite bind_Ok.
  unfold bytes_decode. by rewrite Hbs, utf8_decode_encode.
Qed.

Lemma decode_character_ids_inverts_encoder_witness :
  (C._convert_token_to_id (tokenizer_with 50) [104; 233; 0x4E2D; 0x1F600]
     ≫= C.decode_character_ids (tokenizer_with 50))
  = Ok [104; 233; 0x4E2D; 0x1F600].
Proof.
  apply (decode_character_ids_inverts_encoder no_files C.Args.default).
  - reflexivity.
  - unfold special. vm_compute. intros [H|[H|[H|H]]]; discriminate H.
  - apply (bool_decide_unpack _). vm_compute. exact I.
  - vm_compute. discriminate.
Defined.

(** ** Further properties and the spec's concrete scenarios *)

(** A list that is too short passes the length assertion: the empty list is
    decoded to the empty string. *)
Example decode_empty_list :
  C._convert_id_to_token (tokenizer_with 50) [] = Ok [].
Proof. reflexivity. Qed.

(** [tokenize] never raises, whatever the Unicode functions are: the index
    [output[-1]] of the punctuation split is always in range. *)
Theorem tokenize_total `{U : Unicode} (self : B.t) (text : str)
    (never_split : option (list str)) :
  exists tokens, B.tokenize self text never_split = Ok tokens.
Proof. rewrite tokenize_eq. by eexists. Qed.

(** Every token [tokenize] returns is non-empty and free of the separators
    of [str.split]. *)
Theorem tokenize_tokens_nonempty `{U : Unicode} (self : B.t) (text : str)
    (never_split : option (list str)) :
  exists tokens,
    B.tokenize self text never_split = Ok tokens
    /\ Forall (fun t => t <> [] /\ Forall (fun c => isspace c = false) t) tokens.
Proof.
  rewrite tokenize_eq. eexists. split; [done|].
  eapply Forall_impl; [apply (split_words (fun _ => True)), Forall_true; done|].
  intros t (? & _ & ?). done.
Qed.

(** Scenario 3: with the default settings "don't stop" is segmented into
    "don", "'", "t", "stop". *)
Example tokenize_dont_stop :
  B.tokenize (U := Fragment.unicode) (B.__init__ true None true None true)
    (lit "don't stop") None
  = Ok [lit "don"; lit "'"; lit "t"; lit "stop"].
Proof. by vm_compute. Qed.

(** Scenario 4: for the pair ([a], [b]) the assembled input is
    [CLS, a, SEP, b, SEP], the token type ids are [0, 0, 0, 1, 1] and the
    special-tokens mask is [1, 0, 1, 0, 1]. *)
Theorem pair_assembly (cls_token_id sep_token_id a b : list Z)
    (super_mask : list (list Z) -> option (list (list Z)) -> bool -> result (list Z)) :
  C.build_inputs_with_special_tokens cls_token_id sep_token_id [a] (Some [b])
  = [cls_token_id; a; sep_token_id; b; sep_token_id]
  /\ C.create_token_type_ids_from_sequences cls_token_id sep_token_id [a] (Some [b])
     = [0; 0; 0; 1; 1]
  /\ C.get_special_tokens_mask super_mask [a] (Some [b]) false
     = Ok [1; 0; 1; 0; 1].
Proof. by repeat split. Qed.

(** * Further properties of the encoder and the decoder *)

(** [special_token_character_ids] fails on an index that is a byte value,
    then on a word length too short to hold the three markers, and otherwise
    returns them, shifted, followed by the shifted filler. *)
Theorem special_token_character_ids_cases (index bow eow pad n : Z) :
  special_token_character_ids index bow eow pad n
  = if decide (index <= 255) then Raise AssertionError
    else if decide (n < 3) then Raise IndexError
    else Ok ((bow + 1) :: (index + 1) :: (eow + 1)
               :: replicate (Z.to_nat n - 3) (pad + 1)).
Proof.
  unfold special_token_character_ids, py_assert, list_repeat.
  destruct (Z.ltb_spec 255 index); case_decide; try lia; [|done].
  rewrite bind_Ok.
  destruct (Z.to_nat n) as [|[|[|m]]] eqn:Hm; case_decide; try lia; try done.
  simpl. by rewrite Nat.sub_0_r, fmap_replicate.
Qed.

(** The byte path of the decoder on an array of the encoder's shape, with
    any number of trailing fillers. *)
Lemma decode_character_ids_shape kw self token m :
  constructed kw self -> Forall scalar token ->
  C.decode_character_ids self
    (259 :: ((fun index => index + 1) <$> utf8_encode_ignore token)
       ++ 260 :: replicate m 261)
  = Ok token.
Proof.
  intros Hc Hsc. pose proof (utf8_encode_ignore_bytes token) as Hbytes.
  pose proof (cons_mwl_ge _ _ Hc) as Hge.
  unfold C.decode_character_ids.
  rewrite (cons_bow _ _ Hc), (cons_eow _ _ Hc), (cons_padc _ _ Hc).
  rewrite (cons_cls _ _ Hc), (cons_sep _ _ Hc),
    (cons_mask _ _ Hc), (cons_pad _ _ Hc).
  rewrite fmap_cons, fmap_app, fmap_cons, fmap_replicate, unshift_shift. simpl.
  destruct (Z.to_nat (C.max_word_length self)) as [|n] eqn:Hn; [lia|].
  repeat (case_decide; [simplify_eq|]).
  rewrite List.filter_app. simpl. rewrite filter_replicate_false by done.
  rewrite filter_bytes, app_nil_r; [|intros b Hb; unfold is_byte in Hb; bool_lia|done].
  rewrite to_bytes_Ok by done. rewrite bind_Ok.
  unfold bytes_decode. by rewrite utf8_decode_encode.
Qed.

Lemma convert_token_to_id_fitting kw self token :
  constructed kw self -> ~ special self token -> fits self token ->
  C._convert_token_to_id self token
  = Ok (259 :: ((fun index => index + 1) <$> utf8_encode_ignore token)
          ++ 260 :: replicate (Z.to_nat (C.max_word_length self) - 2
                               - length (utf8_encode_ignore token)) 261).
Proof.
  intros Hc Hord Hfit. rewrite (convert_token_to_id_ordinary kw) by done.
  unfold token_bytes. by rewrite slice_to_whole.
Qed.

(** The encoder is injective on the tokens it does not truncate: two
    ordinary tokens of Unicode scalar values that both fit and have the same
    array are the same token. *)
Theorem encoder_injective fs kw self t1 t2 :
  C.__init__ fs kw = Ok self ->
  ~ special self t1 -> ~ special self t2 ->
  Forall scalar t1 -> Forall scalar t2 ->
  fits self t1 -> fits self t2 ->
  C._convert_token_to_id self t1 = C._convert_token_to_id self t2 ->
  t1 = t2.
Proof.
  intros Hc%init_constructed Ho1 Ho2 Hs1 Hs2 Hf1 Hf2 Heq.
  rewrite !(convert_token_to_id_fitting kw) in Heq by done.
  injection Heq as Heq.
  pose proof (decode_character_ids_shape kw self t1
    (Z.to_nat (C.max_word_length self) - 2 - length (utf8_encode_ignore t1))
    Hc Hs1) as H1.
  rewrite Heq, (decode_character_ids_shape kw) in H1 by done.
  by injection H1.
Qed.

Lemma encoder_injective_witness : lit "hi" = lit "hi".
Proof.
  apply (encoder_injective no_files C.Args.default (tokenizer_with 50)).
  - reflexivity.
  - unfold special. vm_compute. intros [H|[H|[H|H]]]; discriminate H.
  - unfold special. vm_compute. intros [H|[H|[H|H]]]; discriminate H.
  - apply (bool_decide_unpack _). vm_compute. exact I.
  - apply (bool_decide_unpack _). vm_compute. exact I.
  - vm_compute. discriminate.
  - vm_compute. discriminate.
  - reflexivity.
Defined.

(** Truncation: once the UTF-8 encoding of an ordinary token has
    [max_word_length - 2] bytes or more, whatever follows is ignored, and
    the array holds no filler: BOW, the first [max_word_length - 2] bytes
    shifted by one, EOW. *)
Theorem encoder_truncates fs kw self token more :
  C.__init__ fs kw = Ok self ->
  ~ special self token -> ~ special self (token ++ more) ->
  C.max_word_length self - 2 <= len (utf8_encode_ignore token) ->
  C._convert_token_to_id self (token ++ more) = C._convert_token_to_id self token
  /\ C._convert_token_to_id self token
     = Ok (259 :: ((fun index => index + 1)
                     <$> take (Z.to_nat (C.max_word_length self - 2))
                           (utf8_encode_ignore token))
             ++ [260]).
Proof.
  intros Hc%init_constructed Ho Ho' Hlong.
  pose proof (cons_mwl_ge _ _ Hc) as Hge.
  rewrite !(convert_token_to_id_ordinary kw) by done.
  unfold len in Hlong.
  assert (Hbs : token_bytes self token
                = take (Z.to_nat (C.max_word_length self - 2))
                    (utf8_encode_ignore token)).
  { unfold token_bytes, slice_to. by destruct (Z.leb_spec 0 (C.max_word_length self - 2)); [|lia]. }
  assert (Hbs' : token_bytes self (token ++ more) = token_bytes self token).
  { rewrite Hbs. unfold token_bytes, slice_to.
    destruct (Z.leb_spec 0 (C.max_word_length self - 2)); [|lia].
    unfold utf8_encode_ignore. rewrite flat_map_app.
    apply take_app_le. fold (utf8_encode_ignore token). lia. }
  rewrite Hbs'. split; [done|].
  rewrite Hbs, length_take.
  replace (_ - _ - _)%nat with 0%nat by lia. done.
Qed.

Lemma encoder_truncates_witness :
  C._convert_token_to_id (tokenizer_with 8) (lit "tokens" ++ lit "!")
  = C._convert_token_to_id (tokenizer_with 8) (lit "tokens")
  /\ C._convert_token_to_id (tokenizer_with 8) (lit "tokens")
     = Ok (259 :: ((fun index => index + 1)
                     <$> take (Z.to_nat (C.max_word_length (tokenizer_with 8) - 2))
                           (utf8_encode_ignore (lit "tokens")))
             ++ [260]).
Proof.
  apply (encoder_truncates no_files args8 (tokenizer_with 8)).
  - reflexivity.
  - unfold special. vm_compute. intros [H|[H|[H|H]]]; discriminate H.
  - unfold special. vm_compute. intros [H|[H|[H|H]]]; discriminate H.
  - vm_compute. discriminate.
Defined.

Lemma special_arrays_length kw self ids :
  constructed kw self -> ids ∈ special_arrays self ->
  len ids = C.max_word_length self.
Proof.
  intros Hc Hin. pose proof (cons_mwl_ge _ _ Hc) as Hge.
  unfold special_arrays in Hin.
  rewrite (cons_cls _ _ Hc), (cons_sep _ _ Hc),
    (cons_mask _ _ Hc), (cons_pad _ _ Hc) in Hin.
  rewrite !elem_of_cons, elem_of_nil in Hin. unfold len.
  destruct Hin as [->|[->|[->|[->|[]]]]]; simpl;
    rewrite ?length_replicate; lia.
Qed.

(** The four branches of [_convert_id_to_token] that return a special token
    are never taken: a list that passes the assertion has another length
    than the stored arrays, so the call is the byte path, which drops BOW,
    EOW and the filler and decodes the rest as UTF-8. *)
Theorem decoder_is_byte_path fs kw self ids :
  C.__init__ fs kw = Ok self ->
  len ids <> C.max_word_length self ->
  C._convert_id_to_token self ids
  = (bs ← to_bytes
            (List.filter
               (fun x => negb (x =? 260) && negb (x =? 258) && negb (x =? 259))
               ((fun index => index - 1) <$> ids));
     bytes_decode bs).
Proof.
  intros Hc%init_constructed Hlen.
  unfold C._convert_id_to_token, py_assert.
  destruct (Z.eqb_spec (len ids) (C.max_word_length self)); [done|].
  simpl. unfold C.decode_character_ids.
  rewrite (cons_bow _ _ Hc), (cons_eow _ _ Hc), (cons_padc _ _ Hc).
  assert (Hne : forall arr, arr ∈ special_arrays self ->
                       (fun index => index - 1) <$> ids <> arr).
  { intros arr Harr Heq. apply Hlen.
    rewrite <- (special_arrays_length kw self arr Hc Harr), <- Heq.
    unfold len. by rewrite length_fmap. }
  unfold special_arrays in Hne.
  by rewrite !decide_False by (apply Hne; rewrite !elem_of_cons; eauto 6).
Qed.

Lemma decoder_is_byte_path_witness :
  C._convert_id_to_token (tokenizer_with 50) [259; 105; 260]
  = (bs ← to_bytes
            (List.filter
               (fun x => negb (x =? 260) && negb (x =? 258) && negb (x =? 259))
               ((fun index => index - 1) <$> [259; 105; 260]));
     bytes_decode bs).
Proof.
  apply (decoder_is_byte_path no_files C.Args.default).
  - reflexivity.
  - vm_compute. discriminate.
Defined.

(** The decoder returns the token of every array of the encoder's shape
    whose length is NOT [max_word_length]: an encoder output followed by
    one or more extra fillers is decoded. *)
Theorem decoder_accepts_longer_arrays fs kw self token (k : nat) :
  C.__init__ fs kw = Ok self ->
  ~ special self token -> Forall scalar token -> fits self token ->
  (0 < k)%nat ->
  (ids ← C._convert_token_to_id self token;
   C._convert_id_to_token self (ids ++ replicate k 261))
  = Ok token.
Proof.
  intros Hc%init_constructed Hord Hsc Hfit Hk.
  destruct (encoder_shape kw self token Hc) as (ids & Hids & Hlen & _).
  rewrite Hids, bind_Ok.
  rewrite (convert_token_to_id_fitting kw) in Hids by done.
  injection Hids as <-.
  unfold C._convert_id_to_token, py_assert.
  replace (len _ =? _) with false.
  2:{ symmetry. apply Z.eqb_neq. unfold len in *.
      rewrite length_app, length_replicate. lia. }
  simpl. rewrite <- app_assoc. simpl.
  rewrite <- replicate_add. by apply (decode_character_ids_shape kw).
Qed.

Lemma decoder_accepts_longer_arrays_witness :
  (ids ← C._convert_token_to_id (tokenizer_with 50) (lit "hi");
   C._convert_id_to_token (tokenizer_with 50) (ids ++ replicate 1 261))
  = Ok (lit "hi").
Proof.
  apply (decoder_accepts_longer_arrays no_files C.Args.default).
  - reflexivity.
  - unfold special. vm_compute. intros [H|[H|[H|H]]]; discriminate H.
  - apply (bool_decide_unpack _). vm_compute. exact I.
  - vm_compute. discriminate.
  - lia.
Defined.

(** * The MLM vocabulary: loading and the reverse mapping *)

Section dict_lemmas.
Context `{EqDecision K} {V : Type}.
Implicit Types (d : list (K * V)) (k : K) (v : V).

Lemma dict_get_set d k v k' :
  dict_get (dict_set d k v) k' = if decide (k' = k) then Some v else dict_get d k'.
Proof.
  induction d as [|[k0 v0] d IH]; simpl.
  - by repeat case_decide.
  - destruct (decide (k = k0)) as [->|Hne]; simpl.
    + by repeat case_decide.
    + rewrite IH. repeat case_decide; congruence.
Qed.

Lemma dict_get_None d k : dict_get d k = None <-> k ∉ d.*1.
Proof.
  induction d as [|[k0 v0] d IH]; simpl.
  - split; [intros _; apply not_elem_of_nil|done].
  - rewrite not_elem_of_cons. case_decide as Hk; [split; [done|tauto]|].
    rewrite IH. tauto.
Qed.

Lemma dict_get_Some d k v :
  NoDup d.*1 -> dict_get d k = Some v <-> (k, v) ∈ d.
Proof.
  induction d as [|[k0 v0] d IH]; simpl; intros Hnd.
  - split; [done|]. by intros ?%elem_of_nil.
  - apply NoDup_cons in Hnd as [Hk0 Hnd]. rewrite elem_of_cons.
    case_decide as Hk; [subst k|].
    + split; [intros [= ->]; by left|].
      intros [[= ->]|Hin]; [done|].
      destruct Hk0. apply list_elem_of_fmap. by exists (k0, v).
    + rewrite IH by done. split; [by right|].
      intros [[= -> ->]|Hin]; done.
Qed.

(** [d[k] = v] appends a new key and overwrites an old one in place. *)
Lemma dict_set_cases d k v :
  ((k ∉ d.*1) /\ dict_set d k v = d ++ [(k, v)])
  \/ (exists d1 v0 d2, d = d1 ++ (k, v0) :: d2 /\ dict_set d k v = d1 ++ (k, v) :: d2).
Proof.
  induction d as [|[k0 v0] d IH]; simpl.
  - left. split; [apply not_elem_of_nil|done].
  - case_decide as Hk; [subst k0|].
    + right. by exists [], v0, d.
    + destruct IH as [[Hout ->]|(d1 & v1 & d2 & -> & ->)].
      * left. split; [|done]. rewrite not_elem_of_cons. by split.
      * right. by exists ((k0, v0) :: d1), v1, d2.
Qed.

Lemma dict_of_pairs_NoDup (pairs acc : list (K * V)) :
  NoDup (acc.*1 ++ pairs.*1) ->
  fold_left (fun d kv => dict_set d kv.1 kv.2) pairs acc = acc ++ pairs.
Proof.
  revert acc. induction pairs as [|[k v] pairs IH]; intros acc Hnd; simpl.
  - by rewrite app_nil_r.
  - destruct (dict_set_cases acc k v) as [[_ ->]|(d1 & v0 & d2 & -> & _)].
    + rewrite IH; [by rewrite <- app_assoc|].
      by rewrite fmap_app, <- app_assoc.
    + exfalso. simpl in Hnd. rewrite fmap_app, fmap_cons in Hnd. simpl in Hnd.
      rewrite <- app_assoc in Hnd. apply NoDup_app in Hnd as (_ & _ & Hnd).
      simpl in Hnd. apply NoDup_cons in Hnd as [Hnd _]. apply Hnd.
      rewrite elem_of_app. right. by left.
Qed.

Lemma dict_of_pairs_id (pairs : list (K * V)) :
  NoDup pairs.*1 -> dict_of_pairs pairs = pairs.
Proof. intros Hnd. unfold dict_of_pairs. by rewrite dict_of_pairs_NoDup. Qed.

End dict_lemmas.

Lemma init_missing_vocab_file fs kw path :
  C.Args.mlm_vocab_file kw = Some path -> path <> [] -> fs path = None ->
  C.__init__ fs kw = Raise ValueError.
Proof.
  intros Hfile Hne Hfs. unfold C.__init__. rewrite Hfile.
  destruct path; [done|]. by rewrite Hfs.
Qed.

(** What the constructor checks. A vocabulary file that is asked for and
    is not there makes it raise [ValueError], whatever the other arguments
    are: this is its first statement. And whenever it returns, the file it
    was given exists, [max_word_length] is at least 3, and each of the four
    precomputed arrays has exactly [max_word_length] entries. *)
Theorem init_requirements fs kw :
  (~ vocab_file_found fs kw -> C.__init__ fs kw = Raise ValueError)
  /\ (forall self, C.__init__ fs kw = Ok self ->
        vocab_file_found fs kw
        /\ 3 <= C.Args.max_word_length kw
        /\ Forall (fun ids => len ids = C.Args.max_word_length kw)
             (special_arrays self)).
Proof.
  assert (Hmissing : ~ vocab_file_found fs kw ->
                     C.__init__ fs kw = Raise ValueError).
  { unfold vocab_file_found. intros Hnot.
    destruct (C.Args.mlm_vocab_file kw) as [[|c path]|] eqn:Hfile;
      [by destruct Hnot| |by destruct Hnot].
    destruct (fs (c :: path)) as [lines|] eqn:Hfs; [by destruct Hnot|].
    by apply (init_missing_vocab_file fs kw (c :: path)). }
  split; [done|]. intros self Hself.
  pose proof (init_constructed fs kw self Hself) as Hc.
  split_and!.
  - unfold vocab_file_found in *.
    destruct (C.Args.mlm_vocab_file kw) as [[|c path]|] eqn:Hfile; try done.
    destruct (fs (c :: path)) as [lines|] eqn:Hfs; [done|].
    rewrite Hmissing in Hself; [discriminate|]. by intros [? [=]].
  - rewrite <- (cons_mwl _ _ Hc). apply (cons_mwl_ge _ _ Hc).
  - apply Forall_forall. intros ids Hin.
    rewrite <- (cons_mwl _ _ Hc). by apply (special_arrays_length kw).
Qed.

Lemma last_index_from_Some (k : nat) (tok : str) (toks : list str) (i : Z) :
  last_index_from k tok toks = Some i
  <-> exists j : nat, i = Z.of_nat (k + j) /\ toks !! j = Some tok
        /\ forall j' : nat, (j < j')%nat -> toks !! j' <> Some tok.
Proof.
  revert k i. induction toks as [|t ts IH]; intros k i; simpl.
  - split; [done|]. by intros (j & _ & ? & _).
  - destruct (last_index_from (S k) tok ts) as [i'|] eqn:Hlast.
    + apply IH in Hlast as (j & -> & Hj & Hafter). split.
      * intros [= <-]. exists (S j). split; [f_equal; lia|]. split; [done|].
        intros [|j'] Hlt; [lia|]. apply Hafter. lia.
      * intros ([|j0] & -> & Hj0 & Hafter0).
        -- destruct (Hafter0 (S j)); [lia|done].
        -- f_equal. destruct (Nat.lt_trichotomy j j0) as [Hlt|[->|Hgt]].
           ++ by destruct (Hafter j0).
           ++ f_equal. lia.
           ++ destruct (Hafter0 (S j)); [lia|done].
    + assert (Hnone : forall j, ts !! j <> Some tok).
      { intros j Hj. assert (exists i, last_index_from (S k) tok ts = Some i)
          as [i' Hi']; [|congruence].
        clear Hlast. revert k j Hj. clear IH.
        induction ts as [|t' ts IH']; intros k j Hj; [done|]. simpl.
        destruct j as [|j]; simpl in Hj.
        - injection Hj as ->. destruct (last_index_from (S (S k)) tok ts);
            [by eexists|]. rewrite decide_True by done. by eexists.
        - destruct (IH' (S k) j Hj) as [i' ->]. by eexists. }
      case_decide as Ht; [subst t|].
      * split.
        -- intros [= <-]. exists 0%nat. split; [f_equal; lia|]. split; [done|].
           intros [|j'] Hlt; [lia|]. apply Hnone.
        -- intros ([|j0] & -> & Hj0 & _); [f_equal; f_equal; lia|].
           by destruct (Hnone j0).
      * split; [done|]. intros ([|j0] & _ & Hj0 & _); [by injection Hj0|].
        by destruct (Hnone j0).
Qed.

Lemma load_vocab_loop_lookup (lines : list str) (d : dict str Z) (k : nat) :
  exists d',
    for_enumerate load_vocab_step d k lines = Ok d'
    /\ forall tok,
         dict_get d' tok
         = match last_index_from k tok (rstrip_newline <$> lines) with
           | Some i => Some i
           | None => dict_get d tok
           end.
Proof.
  revert d k. induction lines as [|l lines IH]; intros d k.
  - by eexists.
  - destruct (IH (dict_set d (rstrip_newline l) (Z.of_nat k)) (S k))
      as (d' & Hd' & Hget).
    exists d'. split; [done|]. intros tok.
    rewrite Hget, fmap_cons. cbn [last_index_from].
    destruct (last_index_from (S k) tok (rstrip_newline <$> lines)); [done|].
    rewrite dict_get_set. by case_decide.
Qed.

(** [load_vocab] maps a token to the number of the last line of the file
    that holds it (line terminators stripped), and knows no other token. *)
Theorem load_vocab_lookup (fs : filesystem) (vocab_file : str) (lines : list str) :
  fs vocab_file = Some lines ->
  exists vocab,
    load_vocab fs vocab_file = Ok vocab
    /\ forall (tok : str) (i : Z),
         dict_get vocab tok = Some i
         <-> exists j : nat,
               i = Z.of_nat j
               /\ (rstrip_newline <$> lines) !! j = Some tok
               /\ forall j' : nat, (j < j')%nat ->
                    (rstrip_newline <$> lines) !! j' <> Some tok.
Proof.
  intros Hfs. unfold load_vocab. rewrite Hfs.
  destruct (load_vocab_loop_lookup lines [] 0) as (vocab & Hvocab & Hget).
  exists vocab. split; [done|]. intros tok i. rewrite Hget. simpl.
  destruct (last_index_from 0 tok (rstrip_newline <$> lines)) as [i'|] eqn:Hlast.
  - rewrite <- (last_index_from_Some 0), Hlast. done.
  - split; [done|]. intros Hex. apply (last_index_from_Some 0) in Hex. congruence.
Qed.

Lemma load_vocab_lookup_witness :
  exists vocab,
    load_vocab vocab_files (lit "mlm_vocab.txt") = Ok vocab
    /\ forall (tok : str) (i : Z),
         dict_get vocab tok = Some i
         <-> exists j : nat,
               i = Z.of_nat j
               /\ (rstrip_newline
                     <$> [lit "[UNK]" ++ [10]; lit "the" ++ [10];
                          lit "cat" ++ [10]; lit "the" ++ [10]]) !! j = Some tok
               /\ forall j' : nat, (j < j')%nat ->
                    (rstrip_newline
                       <$> [lit "[UNK]" ++ [10]; lit "the" ++ [10];
                            lit "cat" ++ [10]; lit "the" ++ [10]]) !! j'
                    <> Some tok.
Proof. apply (load_vocab_lookup vocab_files (lit "mlm_vocab.txt")). reflexivity. Defined.

Lemma NoDup_replace {A} (l1 l2 : list A) (x y : A) :
  NoDup (l1 ++ x :: l2) -> y ∉ l1 -> y ∉ l2 -> NoDup (l1 ++ y :: l2).
Proof.
  rewrite !NoDup_app, !NoDup_cons. intros (H1 & H12 & _ & H2) Hy1 Hy2.
  split; [done|]. split; [|done].
  intros z Hz [->|Hz2]%elem_of_cons; [done|].
  apply (H12 z Hz). by right.
Qed.

(** The loop of [load_vocab] keeps the tokens distinct and the indices
    distinct: every index in the dictionary is below the current line
    number. *)
Lemma load_vocab_loop_inv (lines : list str) (d d' : list (str * Z)) (k : nat) :
  NoDup d.*1 -> NoDup d.*2 -> Forall (fun v => v < Z.of_nat k) d.*2 ->
  for_enumerate load_vocab_step d k lines = Ok d' ->
  NoDup d'.*1 /\ NoDup d'.*2.
Proof.
  revert d k. induction lines as [|l lines IH]; intros d k Hk Hv Hlt Hrun.
  - by injection Hrun as <-.
  - change (for_enumerate load_vocab_step
              (dict_set d (rstrip_newline l) (Z.of_nat k)) (S k) lines = Ok d')
      in Hrun.
    assert (Hfresh : Z.of_nat k ∉ d.*2).
    { intros Hin. rewrite Forall_forall in Hlt. specialize (Hlt _ Hin). lia. }
    apply IH in Hrun; [done|..];
      destruct (dict_set_cases d (rstrip_newline l) (Z.of_nat k))
        as [[Hout ->]|(d1 & v0 & d2 & -> & ->)].
    + rewrite fmap_app. simpl. apply NoDup_app. split; [done|].
      split; [|apply NoDup_singleton].
      intros x Hx ->%list_elem_of_singleton. done.
    + by rewrite fmap_app, fmap_cons in *.
    + rewrite fmap_app. simpl. apply NoDup_app. split; [done|].
      split; [|apply NoDup_singleton].
      intros x Hx ->%list_elem_of_singleton. done.
    + rewrite fmap_app, fmap_cons in *. simpl in *.
      apply (NoDup_replace _ _ v0); [done|..];
        intros Hin; apply Hfresh; rewrite elem_of_app, elem_of_cons; auto.
    + rewrite fmap_app. simpl. apply Forall_app. split.
      * eapply Forall_impl; [exact Hlt|]. simpl. lia.
      * apply Forall_singleton. lia.
    + rewrite fmap_app, fmap_cons in *. simpl in *.
      apply Forall_app in Hlt as [Hl1 [_ Hl2]%Forall_cons].
      apply Forall_app. split; [|apply Forall_cons; split; [lia|]];
        (eapply Forall_impl; [eassumption|]); simpl; lia.
Qed.

Lemma load_vocab_NoDup fs vocab_file (vocab : list (str * Z)) :
  load_vocab fs vocab_file = Ok vocab -> NoDup vocab.*1 /\ NoDup vocab.*2.
Proof.
  unfold load_vocab. destruct (fs vocab_file) as [lines|]; [|done].
  apply load_vocab_loop_inv; simpl; (apply NoDup_nil_2 || apply Forall_nil_2).
Qed.

(** What the constructor stores as the vocabulary and its reverse mapping. *)
Lemma init_vocab fs kw self :
  C.__init__ fs kw = Ok self ->
  C.mlm_ids_to_tokens self = dict_of_pairs (swap_pairs (C.mlm_vocab self))
  /\ (C.mlm_vocab self = []
      \/ exists path, C.Args.mlm_vocab_file kw = Some path /\ path <> []
           /\ load_vocab fs path = Ok (C.mlm_vocab self)).
Proof.
  unfold C.__init__. intros H.
  match type of H with (?r ≫= _) = _ => destruct r as [vocab|e] eqn:Hvocab end;
    [|discriminate].
  rewrite bind_Ok in H.
  destruct (Z.ltb_spec (C.Args.max_word_length kw) 3); [discriminate|].
  rewrite bind_Ok in H.
  rewrite !special_token_character_ids_eq in H by (done || lia).
  rewrite !bind_Ok in H. injection H as <-. simpl. split.
  { f_equal. clear. induction vocab as [|[??] vocab IH]; [done|].
    simpl. by rewrite IH. }
  destruct (C.Args.mlm_vocab_file kw) as [[|c path]|];
    [left; congruence| |left; congruence].
  right. exists (c :: path). split; [done|]. split; [done|].
  by destruct (fs (c :: path)).
Qed.

Lemma swap_pairs_fst (d : list (str * Z)) : (swap_pairs d).*1 = d.*2.
Proof.
  unfold swap_pairs. induction d as [|[??] d IH]; [done|].
  rewrite !fmap_cons. simpl. by rewrite IH.
Qed.

Lemma swap_pairs_elem (d : list (str * Z)) (tok : str) (i : Z) :
  (i, tok) ∈ swap_pairs d <-> (tok, i) ∈ d.
Proof.
  unfold swap_pairs. induction d as [|[t j] d IH].
  - by rewrite !elem_of_nil.
  - rewrite fmap_cons, !elem_of_cons, IH. simpl.
    split; (intros [[= -> ->]|?]; [by left|by right]).
Qed.

(** For a constructed tokenizer the reverse mapping inverts the
    vocabulary: a token has index [i] exactly when index [i] has that
    token, so looking a vocabulary token up and back returns it. *)
Theorem mlm_ids_invert_vocab fs kw self (tok : str) (i : Z) :
  C.__init__ fs kw = Ok self ->
  (dict_get (C.mlm_vocab self) tok = Some i
   <-> dict_get (C.mlm_ids_to_tokens self) i = Some tok)
  /\ (dict_get (C.mlm_vocab self) tok = Some i ->
      C.convert_mlm_token_to_id self tok = Some i
      /\ C.convert_mlm_id_to_token self i = tok).
Proof.
  intros [Hids Hvocab]%init_vocab.
  assert (Hnd : NoDup (C.mlm_vocab self).*1 /\ NoDup (C.mlm_vocab self).*2).
  { destruct Hvocab as [->|(path & _ & _ & Hload)].
    - split; apply NoDup_nil_2.
    - by apply load_vocab_NoDup in Hload. }
  destruct Hnd as [Hk Hv].
  assert (Hiff : dict_get (C.mlm_vocab self) tok = Some i
                 <-> dict_get (C.mlm_ids_to_tokens self) i = Some tok).
  { rewrite Hids, dict_of_pairs_id by by rewrite swap_pairs_fst.
    rewrite !dict_get_Some by (done || by rewrite swap_pairs_fst).
    by rewrite swap_pairs_elem. }
  split; [done|]. intros Hget.
  unfold C.convert_mlm_token_to_id, C.convert_mlm_id_to_token.
  rewrite Hget. apply Hiff in Hget. by rewrite Hget.
Qed.

Lemma mlm_ids_invert_vocab_witness :
  (dict_get (C.mlm_vocab vocab_tokenizer) (lit "the") = Some 3
   <-> dict_get (C.mlm_ids_to_tokens vocab_tokenizer) 3 = Some (lit "the"))
  /\ (dict_get (C.mlm_vocab vocab_tokenizer) (lit "the") = Some 3 ->
      C.convert_mlm_token_to_id vocab_tokenizer (lit "the") = Some 3
      /\ C.convert_mlm_id_to_token vocab_tokenizer 3 = lit "the").
Proof. apply (mlm_ids_invert_vocab vocab_files vocab_args). reflexivity. Defined.

(** * Further properties of the segmenter *)

Section segmenter_generic.
Context `{U : Unicode}.

Lemma punc_segments_concat (word : option str) (chars : str) :
  concat (punc_segments word chars) = default [] word ++ chars.
Proof.
  revert word. induction chars as [|c cs IH]; intros word; simpl.
  - destruct word; simpl; by rewrite ?app_nil_r.
  - destruct (_is_punctuation c).
    + rewrite concat_app. simpl. rewrite IH. by destruct word; simpl;
        rewrite ?app_nil_r.
    + rewrite IH. simpl. by rewrite <- app_assoc.
Qed.

Lemma punctuation_not_run (c : Z) (q : str) :
  _is_punctuation c = true -> ~ (Forall nonpunct [c] /\ Forall nonpunct q).
Proof.
  intros Hc [Hn _]. rewrite Forall_singleton in Hn. unfold nonpunct in Hn.
  congruence.
Qed.

Lemma punc_segments_maximal (word : option str) (chars : str) :
  runs_maximal (punc_segments word chars).
Proof.
  revert word. induction chars as [|c cs IH]; intros word; simpl.
  - by destruct word.
  - destruct (_is_punctuation c) eqn:Hc; [|apply IH].
    assert (Htail : runs_maximal ([c] :: punc_segments None cs)).
    { simpl. split; [|apply IH].
      destruct (punc_segments None cs); [done|]. by apply punctuation_not_run. }
    destruct word as [w|]; [|done]. simpl. split; [|done].
    intros [_ Hn]. rewrite Forall_singleton in Hn. unfold nonpunct in Hn.
    congruence.
Qed.

(** [_run_split_on_punc] never raises and loses nothing: the pieces,
    concatenated, are the text. When it does split (punctuation splitting
    is on and the text is not in [never_split]), every piece is one
    punctuation character or a non-empty run without punctuation, and the
    runs are maximal. *)
Theorem run_split_on_punc_partitions (self : B.t) (text : str)
    (never_split : option (gset str)) :
  exists pieces,
    B._run_split_on_punc self text never_split = Ok pieces
    /\ concat pieces = text
    /\ (B.do_split_on_punc self = true ->
        (forall ns, never_split = Some ns -> text ∉ ns) ->
        Forall piece_shape pieces /\ runs_maximal pieces).
Proof.
  unfold B._run_split_on_punc.
  destruct (negb (B.do_split_on_punc self) || _) eqn:Hcond.
  - exists [text]. split; [done|]. split; [simpl; by rewrite app_nil_r|].
    intros Hsp Hns. rewrite Hsp in Hcond. simpl in Hcond.
    destruct never_split as [ns|]; [|done].
    apply bool_decide_eq_true in Hcond. by destruct (Hns ns).
  - unfold for_each.
    destruct (split_on_punc_loop text 0 [] None) as [flag Hf].
    simpl in Hf. rewrite Hf, bind_Ok.
    exists (punc_segments None text). split; [done|].
    split; [by rewrite punc_segments_concat|]. intros _ _. split.
    + eapply Forall_impl;
        [apply (punc_segments_pieces (fun _ => True) None text);
         [by apply Forall_true|constructor]|].
      by intros p (_ & _ & ?).
    + apply punc_segments_maximal.
Qed.

(** [_clean_text] leaves no NUL, no U+FFFD and no control character, and
    the only whitespace it leaves is the ASCII space. *)
Theorem clean_text_output (text : str) :
  Forall (fun c => c <> 0 /\ c <> 0xFFFD
                   /\ (c = 32 \/ (_is_control c = false
                                  /\ _is_whitespace c = false)))
    (B._clean_text text)
  /\ (length (B._clean_text text) <= length text)%nat.
Proof.
  unfold B._clean_text. induction text as [|c text [IH1 IH2]]; simpl.
  - split; [constructor|lia].
  - rewrite length_app.
    destruct (Z.eqb_spec c 0); simpl; [split; [done|lia]|].
    destruct (Z.eqb_spec c 0xFFFD); simpl; [split; [done|lia]|].
    destruct (_is_control c) eqn:Hctl; simpl; [split; [done|lia]|].
    destruct (_is_whitespace c) eqn:Hws; simpl; (split; [|lia]);
      constructor; auto.
Qed.

(** When the space is not a control character, cleaning a cleaned text
    changes nothing. *)
Theorem clean_text_idempotent (text : str) :
  _is_control 32 = false ->
  B._clean_text (B._clean_text text) = B._clean_text text.
Proof.
  intros H32. unfold B._clean_text.
  induction text as [|c text IH]; simpl; [done|].
  rewrite flat_map_app, IH. f_equal.
  destruct (Z.eqb_spec c 0); simpl; [done|].
  destruct (Z.eqb_spec c 0xFFFD); simpl; [done|].
  destruct (_is_control c) eqn:Hctl; simpl; [done|].
  destruct (_is_whitespace c) eqn:Hws; simpl.
  - rewrite H32. simpl. by destruct (_is_whitespace 32).
  - destruct (Z.eqb_spec c 0); [done|].
    destruct (Z.eqb_spec c 0xFFFD); [done|]. simpl. by rewrite Hctl, Hws.
Qed.

Lemma split_from_concat (w s : str) :
  concat (split_from w s) = w ++ filter nospace s.
Proof.
  revert w. induction s as [|c s IH]; intros w; simpl.
  - destruct w; simpl; by rewrite ?app_nil_r.
  - destruct (isspace c) eqn:Hc.
    + rewrite filter_cons_False by (unfold nospace; congruence).
      destruct w; simpl; by rewrite IH.
    + rewrite filter_cons_True by done. rewrite IH. by rewrite <- app_assoc.
Qed.

(** [whitespace_tokenize] only removes separators: its tokens are
    non-empty and free of separators, and concatenated they are the text
    without its separators; it returns no token exactly for a text that is
    made of separators only. *)
Theorem whitespace_tokenize_content (text : str) :
  Forall (fun t => t <> [] /\ Forall nospace t) (whitespace_tokenize text)
  /\ concat (whitespace_tokenize text) = filter nospace text
  /\ (whitespace_tokenize text = []
      <-> Forall (fun c => isspace c = true) text).
Proof.
  rewrite whitespace_tokenize_split. split; [|split].
  - eapply Forall_impl; [apply (split_words (fun _ => True)), Forall_true; done|].
    by intros t (? & _ & ?).
  - unfold split. by rewrite split_from_concat.
  - split.
    + intros Hnil. pose proof (split_from_concat [] text) as Hc.
      fold (split text) in Hc. rewrite Hnil in Hc. simpl in Hc.
      symmetry in Hc. apply Forall_forall. intros c Hin.
      destruct (isspace c) eqn:Hsp; [done|].
      assert (c ∈ filter nospace text) as Hf by by apply list_elem_of_filter.
      rewrite Hc in Hf. by apply elem_of_nil in Hf.
    + intros Hall. unfold split. by rewrite split_from_spaces.
Qed.

(** Joining well-formed tokens with single spaces and splitting again
    gives the tokens back, when the space is a separator of [str.split]. *)
Theorem whitespace_tokenize_join (tokens : list str) :
  isspace 32 = true ->
  Forall (fun t => t <> [] /\ Forall nospace t) tokens ->
  whitespace_tokenize (join [32] tokens) = tokens.
Proof. intros. rewrite whitespace_tokenize_split. by apply split_join. Qed.

Lemma split_from_chinese (w text : str) :
  isspace 32 = true -> Forall not_chinese w ->
  Forall (fun t => Forall not_chinese t \/ exists c, t = [c])
    (split_from w (B._tokenize_chinese_chars text)).
Proof.
  intros H32. revert w. unfold B._tokenize_chinese_chars.
  induction text as [|c text IH]; intros w Hw.
  - simpl. destruct w; constructor; [by left|constructor].
  - cbn [flat_map]. destruct (B._is_chinese_char c) eqn:Hc.
    + cbn [app split_from]. rewrite !H32.
      destruct (isspace c); destruct w;
        repeat (constructor; [first [by left|right; by eexists]|]);
        by apply IH.
    + cbn [app split_from]. destruct (isspace c).
      * destruct w; [by apply IH|]. constructor; [by left|by apply IH].
      * apply IH. apply Forall_app. split; [done|]. by apply Forall_singleton.
Qed.

(** CJK isolation: after [_tokenize_chinese_chars], a whitespace token
    that holds a CJK character is that character alone. *)
Theorem chinese_chars_isolated (text : str) :
  isspace 32 = true ->
  Forall (fun t => Forall not_chinese t \/ exists c, t = [c])
    (whitespace_tokenize (B._tokenize_chinese_chars text)).
Proof.
  intros H32. rewrite whitespace_tokenize_split.
  by apply split_from_chinese.
Qed.

End segmenter_generic.

Lemma clean_text_idempotent_witness :
  Fragment._is_control 32 = false
  /\ B._clean_text (U := Fragment.unicode)
       (B._clean_text (U := Fragment.unicode) [104; 0; 9; 105; 7; 33])
     = B._clean_text (U := Fragment.unicode) [104; 0; 9; 105; 7; 33].
Proof.
  split; [reflexivity|].
  apply (clean_text_idempotent (U := Fragment.unicode)). reflexivity.
Defined.

Lemma whitespace_tokenize_join_witness :
  whitespace_tokenize (U := Fragment.unicode)
    (join [32] [lit "don"; lit "'"; lit "t"])
  = [lit "don"; lit "'"; lit "t"].
Proof.
  apply (whitespace_tokenize_join (U := Fragment.unicode)); [reflexivity|].
  repeat constructor; done.
Defined.

Lemma chinese_chars_isolated_witness :
  Forall (fun t => Forall not_chinese t \/ exists c, t = [c])
    (whitespace_tokenize (U := Fragment.unicode)
       (B._tokenize_chinese_chars [97; 0x4E2D; 0x6587; 98])).
Proof.
  apply (chinese_chars_isolated (U := Fragment.unicode)). reflexivity.
Defined.

(** ** ASCII text: what the segmenter keeps *)

Section ascii_content.
Context `{U : Unicode}.
Hypothesis HU : ascii_conformant U.
Variable self : B.t.
Variable never_split : option (list str).

Lemma tokenize_ascii_eq (text : str) :
  Forall is_ascii text ->
  B.tokenize self text never_split
  = Ok (flat_map (token_pieces self (never_split_of self never_split))
          (split (B._clean_text text))).
Proof.
  intros Ha. pose proof (clean_text_ascii text Ha) as Hclean.
  rewrite tokenize_eq. simpl. rewrite (prepared_text HU) by done.
  pose proof (flat_map_token_pieces_settled HU self
                (never_split_of self never_split) _
                (split_clean_good HU _ Hclean)) as Hout.
  rewrite split_join;
    [done|by apply (isspace_space _ HU)|by eapply pieces_spaceless].
Qed.

Lemma split_on_punc_concat (NS : gset str) (t : str) :
  concat (split_on_punc self NS t) = t.
Proof.
  unfold split_on_punc. case_match.
  - simpl. by rewrite app_nil_r.
  - by rewrite punc_segments_concat.
Qed.

Lemma token_pieces_content (NS : gset str) (tokens : list str) :
  Forall (fun t => t <> [] /\ Forall good t) tokens ->
  ascii_lower <$> concat (flat_map (token_pieces self NS) tokens)
  = ascii_lower <$> concat tokens
  /\ (B.do_lower_case self = false ->
      concat (flat_map (token_pieces self NS) tokens) = concat tokens).
Proof.
  induction 1 as [|t ts [_ Hg] _ [IH1 IH2]]; simpl; [done|].
  rewrite concat_app, !fmap_app, IH1. unfold token_pieces at 1 2.
  rewrite split_on_punc_concat, (normalize_token_ascii HU) by done.
  split.
  - f_equal. case_match; [|done].
    rewrite <- list_fmap_compose. apply list_fmap_ext.
    intros ? c _. apply ascii_lower_idemp.
  - intros Hdl. rewrite IH2 by done. rewrite Hdl. by rewrite andb_false_r.
Qed.

Lemma ascii_lower_fixed_not_upper (p : str) :
  ascii_lower <$> p = p -> Forall not_upper p.
Proof.
  induction p as [|c p IH]; [constructor|].
  rewrite fmap_cons. intros [= Hc Hp]. constructor; [|by apply IH].
  unfold not_upper. unfold ascii_lower in Hc.
  destruct (Z.leb_spec 65 c), (Z.leb_spec c 90); simpl in Hc; lia.
Qed.

End ascii_content.

(** On ASCII text the segmenter only removes and lowercases: the tokens,
    concatenated, are the cleaned text without its separators, exactly
    when lowercasing is off and up to the case of the letters A-Z
    otherwise. *)
Theorem tokenize_ascii_content `{U : Unicode} (self : B.t) (text : str)
    (never_split : option (list str)) :
  ascii_conformant U ->
  Forall is_ascii text ->
  exists tokens,
    B.tokenize self text never_split = Ok tokens
    /\ ascii_lower <$> concat tokens
       = ascii_lower <$> filter nospace (B._clean_text text)
    /\ (B.do_lower_case self = false ->
        concat tokens = filter nospace (B._clean_text text)).
Proof.
  intros HU Ha. rewrite (tokenize_ascii_eq HU) by done.
  eexists. split; [done|].
  pose proof (token_pieces_content HU self (never_split_of self never_split) _
                (split_clean_good HU _ (clean_text_ascii text Ha))) as [H1 H2].
  unfold split in *. rewrite split_from_concat in H1, H2. done.
Qed.

Lemma tokenize_ascii_content_witness :
  exists tokens,
    B.tokenize (U := Fragment.unicode) (B.__init__ true None true None true)
      (lit "Don't  stop") None = Ok tokens
    /\ ascii_lower <$> concat tokens
       = ascii_lower <$> filter (nospace (U := Fragment.unicode))
           (B._clean_text (U := Fragment.unicode) (lit "Don't  stop"))
    /\ (B.do_lower_case (B.__init__ true None true None true) = false ->
        concat tokens
        = filter (nospace (U := Fragment.unicode))
            (B._clean_text (U := Fragment.unicode) (lit "Don't  stop"))).
Proof.
  apply (tokenize_ascii_content (U := Fragment.unicode)).
  - exact fragment_conformant.
  - apply (bool_decide_unpack _). vm_compute. exact I.
Defined.

(** The tokens of an ASCII text: each is made of ASCII characters that are
    not NUL, control characters, whitespace or separators, and each is a
    never-split token or else has no capital letter when lowercasing is
    on and is a single punctuation character or a punctuation-free run when
    punctuation splitting is on. *)
Theorem tokenize_ascii_token_shapes `{U : Unicode} (self : B.t) (text : str)
    (never_split : option (list str)) :
  ascii_conformant U ->
  Forall is_ascii text ->
  exists tokens,
    B.tokenize self text never_split = Ok tokens
    /\ Forall (fun p =>
         Forall good p
         /\ (p ∈ never_split_of self never_split
             \/ ((B.do_lower_case self = true -> Forall not_upper p)
                 /\ (B.do_split_on_punc self = true -> piece_shape p))))
         tokens.
Proof.
  intros HU Ha.
  destruct (tokenize_ascii HU self never_split text Ha) as (tokens & Htok & Hs).
  exists tokens. split; [done|].
  eapply Forall_impl; [exact Hs|].
  intros p (_ & Hg & [Hin|[Hlow Hshape]]); (split; [done|]); [by left|].
  right. split; [|done]. intros Hdl. by apply ascii_lower_fixed_not_upper, Hlow.
Qed.

Lemma tokenize_ascii_token_shapes_witness :
  exists tokens,
    B.tokenize (U := Fragment.unicode) (B.__init__ true None true None true)
      (lit "Don't  stop") None = Ok tokens
    /\ Forall (fun p =>
         Forall (good (U := Fragment.unicode)) p
         /\ (p ∈ never_split_of (B.__init__ true None true None true) None
             \/ ((B.do_lower_case (B.__init__ true None true None true) = true ->
                  Forall not_upper p)
                 /\ (B.do_split_on_punc (B.__init__ true None true None true) = true ->
                     piece_shape (U := Fragment.unicode) p))))
         tokens.
Proof.
  apply (tokenize_ascii_token_shapes (U := Fragment.unicode)).
  - exact fragment_conformant.
  - apply (bool_decide_unpack _). vm_compute. exact I.
Defined.

(** Never-split tokens pass through: a text made of never-split tokens
    separated by single spaces is segmented into exactly these tokens,
    whatever the lowercasing, accent and punctuation settings are. *)
Theorem never_split_tokens_kept `{U : Unicode} (self : B.t)
    (tokens : list str) (never_split : option (list str)) :
  ascii_conformant U ->
  Forall (fun p => p <> [] /\ Forall good p
                   /\ p ∈ never_split_of self never_split) tokens ->
  B.tokenize self (join [32] tokens) never_split = Ok tokens.
Proof.
  intros HU Hts. apply (tokenize_settled HU).
  eapply Forall_impl; [exact Hts|].
  intros p (? & ? & ?). split_and!; [done|done|by left].
Qed.

Lemma never_split_tokens_kept_witness :
  B.tokenize (U := Fragment.unicode) (B.__init__ true None true None true)
    (join [32] [lit "[MASK]"; lit "Hi!"]) (Some [lit "[MASK]"; lit "Hi!"])
  = Ok [lit "[MASK]"; lit "Hi!"].
Proof.
  apply (never_split_tokens_kept (U := Fragment.unicode)).
  - exact fragment_conformant.
  - repeat (apply Forall_cons; split; [split_and!|]); try apply Forall_nil;
      try done;
      try (repeat (apply Forall_cons; split;
                   [repeat split; (reflexivity || (unfold is_ascii; lia) || done)|]);
           apply Forall_nil);
      simpl; rewrite !elem_of_union, !elem_of_singleton; auto.
Defined.

(** * Sequence assembly: how the mask and the type ids line up *)

Lemma select_app {A} (v : Z) (m1 m2 : list Z) (x1 x2 : list A) :
  length m1 = length x1 ->
  select v (m1 ++ m2) (x1 ++ x2) = select v m1 x1 ++ select v m2 x2.
Proof.
  revert x1. induction m1 as [|m m1 IH]; intros [|x x1] Hlen; try done.
  simpl in *. rewrite IH by lia. by case_decide.
Qed.

Lemma select_same {A} (v : Z) (xs : list A) :
  select v (list_repeat v (len xs)) xs = xs.
Proof.
  unfold list_repeat, len. rewrite Nat2Z.id.
  induction xs as [|x xs IH]; [done|]. simpl.
  by rewrite decide_True, IH.
Qed.

Lemma select_other {A} (v w : Z) (n : Z) (xs : list A) :
  w <> v -> select v (list_repeat w n) xs = [].
Proof.
  intros Hne. unfold list_repeat. revert xs.
  induction (Z.to_nat n) as [|k IH]; intros [|x xs]; try done.
  simpl. by rewrite decide_False, IH.
Qed.

Lemma list_repeat_len {A B} (x : A) (l : list B) :
  length (list_repeat x (len l)) = length l.
Proof. unfold list_repeat, len. by rewrite length_replicate, Nat2Z.id. Qed.

(** The three assembly functions agree position by position: in the
    assembled input the positions the mask marks 0 hold the two sequences
    in order and the positions it marks 1 hold CLS and the separators;
    the positions of type 0 hold CLS, the first sequence and its separator,
    those of type 1 the second sequence and its separator. *)
Theorem assembly_alignment (cls_token_id sep_token_id : list Z)
    (super_mask : list (list Z) -> option (list (list Z)) -> bool -> result (list Z))
    (a : list (list Z)) (b : option (list (list Z))) :
  let inputs := C.build_inputs_with_special_tokens cls_token_id sep_token_id a b in
  let types := C.create_token_type_ids_from_sequences cls_token_id sep_token_id a b in
  exists mask,
    C.get_special_tokens_mask super_mask a b false = Ok mask
    /\ select 0 mask inputs = a ++ default [] b
    /\ select 1 mask inputs
       = cls_token_id :: sep_token_id
           :: match b with Some _ => [sep_token_id] | None => [] end
    /\ select 0 types inputs = cls_token_id :: a ++ [sep_token_id]
    /\ select 1 types inputs
       = match b with Some b => b ++ [sep_token_id] | None => [] end.
Proof.
  unfold C.build_inputs_with_special_tokens, C.get_special_tokens_mask,
    C.create_token_type_ids_from_sequences.
  destruct b as [b|]; cbn zeta; eexists; (split; [reflexivity|]).
  - split_and!.
    + rewrite (select_app _ [1] _ [cls_token_id]) by done.
      rewrite select_app by apply list_repeat_len.
      rewrite (select_app _ [1] _ [sep_token_id]) by done.
      rewrite select_app by apply list_repeat_len.
      rewrite !select_same. simpl. by rewrite app_nil_r.
    + rewrite (select_app _ [1] _ [cls_token_id]) by done.
      rewrite select_app by apply list_repeat_len.
      rewrite (select_app _ [1] _ [sep_token_id]) by done.
      rewrite select_app by apply list_repeat_len.
      by rewrite !select_other.
    + replace ([cls_token_id] ++ a ++ [sep_token_id] ++ b ++ [sep_token_id])
        with (([cls_token_id] ++ a ++ [sep_token_id]) ++ (b ++ [sep_token_id]))
        by (by rewrite <- !app_assoc).
      rewrite select_app by apply list_repeat_len.
      rewrite select_same, select_other by done. by rewrite app_nil_r.
    + replace ([cls_token_id] ++ a ++ [sep_token_id] ++ b ++ [sep_token_id])
        with (([cls_token_id] ++ a ++ [sep_token_id]) ++ (b ++ [sep_token_id]))
        by (by rewrite <- !app_assoc).
      rewrite select_app by apply list_repeat_len.
      by rewrite select_same, select_other.
  - split_and!.
    + rewrite (select_app _ [1] _ [cls_token_id]) by done.
      rewrite select_app by apply list_repeat_len.
      rewrite !select_same. simpl. by rewrite !app_nil_r.
    + rewrite (select_app _ [1] _ [cls_token_id]) by done.
      rewrite select_app by apply list_repeat_len.
      by rewrite !select_other.
    + apply select_same.
    + by apply select_other.
Qed.

(** * [_tokenize] and [convert_tokens_to_string] *)

Lemma init_basic_tokenizer fs kw self :
  C.__init__ fs kw = Ok self ->
  C.do_basic_tokenize self = C.Args.do_basic_tokenize kw
  /\ C.basic_tokenizer self
     = if C.Args.do_basic_tokenize kw
       then Some (B.__init__ (C.Args.do_lower_case kw) (C.Args.never_split kw)
                    (C.Args.tokenize_chinese_chars kw) (C.Args.strip_accents kw)
                    true)
       else None.
Proof.
  unfold C.__init__. intros H.
  match type of H with (?r ≫= _) = _ => destruct r as [vocab|e] end;
    [|discriminate].
  rewrite bind_Ok in H.
  destruct (Z.ltb_spec (C.Args.max_word_length kw) 3); [discriminate|].
  rewrite bind_Ok in H.
  rewrite !special_token_character_ids_eq in H by (done || lia).
  rewrite !bind_Ok in H. by injection H as <-.
Qed.

Lemma append_loop (tokens acc : list str) (k : nat) :
  for_enumerate (fun (st : list str) (_ : nat) token => Ok (st ++ [token]))
    acc k tokens
  = Ok (acc ++ tokens).
Proof.
  revert acc k. induction tokens as [|t ts IH]; intros acc k; simpl.
  - by rewrite app_nil_r.
  - rewrite IH. by rewrite <- app_assoc.
Qed.

(** On a constructed tokenizer [_tokenize] never raises, in either mode:
    the attribute [basic_tokenizer] is there when it is read. It returns
    the tokens of the segmenter built from the constructor's arguments,
    called with the special tokens as [never_split] unless
    [split_special_tokens] is set, or those of [whitespace_tokenize]; in
    both modes every token is non-empty and free of separators. *)
Theorem tokenize_of_constructed `{U : Unicode} fs kw self
    (all_special_tokens : list str) (text : str) (split_special_tokens : bool) :
  C.__init__ fs kw = Ok self ->
  exists tokens,
    C._tokenize self all_special_tokens text split_special_tokens
    = inr (Ok tokens)
    /\ Forall (fun t => t <> [] /\ Forall nospace t) tokens
    /\ if C.Args.do_basic_tokenize kw
       then B.tokenize
              (B.__init__ (C.Args.do_lower_case kw) (C.Args.never_split kw)
                 (C.Args.tokenize_chinese_chars kw) (C.Args.strip_accents kw)
                 true)
              text
              (if negb split_special_tokens
               then Some all_special_tokens else None)
            = Ok tokens
       else tokens = whitespace_tokenize text.
Proof.
  intros [Hdo Hbt]%init_basic_tokenizer. unfold C._tokenize.
  rewrite Hdo, Hbt. destruct (C.Args.do_basic_tokenize kw).
  - rewrite tokenize_eq, bind_Ok. unfold for_each. rewrite append_loop.
    eexists. split; [done|]. split; [|done]. simpl.
    eapply Forall_impl; [apply (split_words (fun _ => True)), Forall_true; done|].
    by intros t (? & _ & ?).
  - eexists. split; [done|]. split; [|done].
    rewrite whitespace_tokenize_split.
    eapply Forall_impl; [apply (split_words (fun _ => True)), Forall_true; done|].
    by intros t (? & _ & ?).
Qed.

Lemma tokenize_of_constructed_witness :
  exists tokens,
    C._tokenize (U := Fragment.unicode) vocab_tokenizer
      [lit "[CLS]"; lit "[SEP]"] (lit "Don't  stop") false
    = inr (Ok tokens)
    /\ Forall (fun t => t <> [] /\ Forall (nospace (U := Fragment.unicode)) t)
         tokens
    /\ if C.Args.do_basic_tokenize vocab_args
       then B.tokenize (U := Fragment.unicode)
              (B.__init__ (C.Args.do_lower_case vocab_args)
                 (C.Args.never_split vocab_args)
                 (C.Args.tokenize_chinese_chars vocab_args)
                 (C.Args.strip_accents vocab_args) true)
              (lit "Don't  stop")
              (if negb false then Some [lit "[CLS]"; lit "[SEP]"] else None)
            = Ok tokens
       else tokens = whitespace_tokenize (U := Fragment.unicode)
                       (lit "Don't  stop").
Proof.
  apply (tokenize_of_constructed (U := Fragment.unicode) vocab_files vocab_args).
  reflexivity.
Defined.

Lemma join_cons (t : str) (rest : list str) :
  join [32] (t :: rest) = t ++ flat_map (fun u => 32 :: u) rest.
Proof.
  revert t. induction rest as [|u rest IH]; intros t.
  - simpl. by rewrite app_nil_r.
  - change (join [32] (t :: u :: rest)) with (t ++ 32 :: join [32] (u :: rest)).
    by rewrite IH.
Qed.

Lemma startswith_hashes (u : str) :
  startswith u [35; 35] = true -> u = 35 :: 35 :: drop 2 u.
Proof.
  destruct u as [|c [|d u]]; simpl; try done.
  - by rewrite andb_false_r.
  - intros H. apply andb_prop in H as [->%Z.eqb_eq H].
    by apply andb_prop in H as [->%Z.eqb_eq _].
Qed.

Lemma startswith_before_space (u : str) (rest : list str) :
  startswith (u ++ flat_map (fun u => 32 :: u) rest) [35; 35]
  = startswith u [35; 35].
Proof.
  destruct u as [|c [|d u]]; [by destruct rest| |reflexivity].
  destruct rest; simpl; by rewrite ?andb_false_r.
Qed.

Lemma replace_from_cons (old new : str) (c : Z) (s : str) :
  replace_from old new 0 (c :: s)
  = if startswith (c :: s) old
    then new ++ replace_from old new (length old - 1) s
    else c :: replace_from old new 0 s.
Proof. reflexivity. Qed.

Lemma replace_glue (rest : list str) :
  Forall (fun t : str => 32 ∉ t) rest ->
  forall t : str, 32 ∉ t ->
    replace_from [32; 35; 35] [] 0 (t ++ flat_map (fun u => 32 :: u) rest)
    = t ++ flat_map glue_step rest.
Proof.
  induction 1 as [|u rest Hu _ IH]; intros t Ht.
  - simpl. rewrite !app_nil_r. induction t as [|c t IHt]; [done|].
    apply not_elem_of_cons in Ht as [Hc Ht].
    rewrite replace_from_cons. cbn [startswith].
    destruct (Z.eqb_spec c 32); [done|]. simpl. by rewrite IHt.
  - induction t as [|c t IHt].
    + cbn [app flat_map]. rewrite replace_from_cons.
      change (startswith (32 :: u ++ flat_map (fun u => 32 :: u) rest)
                [32; 35; 35])
        with (startswith (u ++ flat_map (fun u => 32 :: u) rest) [35; 35]).
      rewrite startswith_before_space. unfold glue_step at 1.
      destruct (startswith u [35; 35]) eqn:Hp.
      * apply startswith_hashes in Hp. rewrite Hp in Hu |- *.
        apply not_elem_of_cons in Hu as [_ Hu].
        apply not_elem_of_cons in Hu as [_ Hu].
        cbn [app length Nat.sub replace_from drop]. by apply IH.
      * cbn [app]. f_equal. by apply IH.
    + apply not_elem_of_cons in Ht as [Hc Ht].
      cbn [app]. rewrite replace_from_cons. cbn [startswith].
      destruct (Z.eqb_spec c 32); [done|]. simpl. f_equal. by apply IHt.
Qed.

Lemma convert_tokens_to_string_glues_aux `{U : Unicode} (tokens : list str) :
  Forall (fun t : str => 32 ∉ t) tokens ->
  C.convert_tokens_to_string tokens = strip (glue tokens).
Proof.
  intros Hts. unfold C.convert_tokens_to_string. cbn zeta. f_equal.
  change (lit " ##") with [32; 35; 35]. change (lit "") with (@nil Z).
  change (lit " ") with [32]. unfold str_replace.
  destruct Hts as [|t rest Ht Hrest]; [done|].
  rewrite join_cons. by apply replace_glue.
Qed.

(** [convert_tokens_to_string] glues the word pieces: when no token holds
    a space, the result is the first token followed by the other tokens,
    each after a space, or without its leading "##" and without the space
    when it starts with "##"; and the whole stripped. *)
Theorem convert_tokens_to_string_glues `{U : Unicode} (tokens : list str) :
  Forall (fun t : str => 32 ∉ t) tokens ->
  C.convert_tokens_to_string tokens = strip (glue tokens).
Proof. apply convert_tokens_to_string_glues_aux. Qed.

Lemma convert_tokens_to_string_glues_witness :
  C.convert_tokens_to_string (U := Fragment.unicode)
    [lit "un"; lit "##believ"; lit "##able"; lit "#"; lit "tokens"]
  = strip (U := Fragment.unicode)
      (glue [lit "un"; lit "##believ"; lit "##able"; lit "#"; lit "tokens"]).
Proof.
  apply (convert_tokens_to_string_glues (U := Fragment.unicode)).
  repeat (apply Forall_cons; split;
          [unfold lit; simpl; rewrite !not_elem_of_cons; split_and!;
           ((by vm_compute) || apply not_elem_of_nil)|]).
  constructor.
Defined.

Lemma glue_plain (tokens : list str) :
  Forall (fun t => startswith t [35; 35] = false) tokens ->
  glue tokens = join [32] tokens.
Proof.
  destruct 1 as [|t rest _ Hrest]; [done|].
  rewrite join_cons. simpl. f_equal.
  induction Hrest as [|u rest Hu _ IH]; [done|].
  simpl. rewrite IH. unfold glue_step. by rewrite Hu.
Qed.

Lemma split_strip `{U : Unicode} (s : str) : split (strip s) = split s.
Proof.
  destruct (strip_decomp s) as (ws1 & ws2 & Hs & Hws1 & Hws2).
  rewrite Hs at 2. rewrite split_leading by done.
  unfold split. by rewrite split_from_trailing.
Qed.

(** Round trip: tokens that are non-empty, free of separators and do not
    start with "##" are recovered by [whitespace_tokenize] from the string
    [convert_tokens_to_string] builds, when the space is a separator. *)
Theorem whitespace_tokenize_inverts_join `{U : Unicode} (tokens : list str) :
  isspace 32 = true ->
  Forall (fun t => t <> [] /\ Forall nospace t
                   /\ startswith t [35; 35] = false) tokens ->
  whitespace_tokenize (C.convert_tokens_to_string tokens) = tokens.
Proof.
  intros H32 Hts.
  rewrite convert_tokens_to_string_glues_aux.
  - rewrite glue_plain by (eapply Forall_impl; [exact Hts|]; by intros t (_ & _ & ?)).
    rewrite whitespace_tokenize_split, split_strip. apply split_join; [done|].
    eapply Forall_impl; [exact Hts|]. by intros t (? & ? & _).
  - eapply Forall_impl; [exact Hts|]. intros t (_ & Hn & _) Hin.
    rewrite Forall_forall in Hn. specialize (Hn 32 Hin).
    unfold nospace in Hn. congruence.
Qed.

Lemma whitespace_tokenize_inverts_join_witness :
  whitespace_tokenize (U := Fragment.unicode)
    (C.convert_tokens_to_string (U := Fragment.unicode)
       [lit "don"; lit "'"; lit "t"])
  = [lit "don"; lit "'"; lit "t"].
Proof.
  apply (whitespace_tokenize_inverts_join (U := Fragment.unicode));
    [reflexivity|].
  repeat constructor; done.
Defined.
